(** * Russian Fish: rule engine and turn-state machine

    A shallow embedding of [src/utils.ts] and of the game logic of
    [src/App.tsx] (a React component), with the properties of the rule
    engine proved over it.

    Conventions of the embedding.
    - A JS array is a [list] in the same order: index 0 is the head, the
      element removed by [pop()] is the last one, the "top" of deck and
      discard pile.
    - [Record<PlayerID, CardModel[]>] is a record with the four keys of the
      object literal, in their insertion order (south, west, north, east).
    - The React state variables of [App] that [types.ts] groups as
      [GameState] form one record; a handler is a function from the state it
      is invoked in to the state after all its queued updates are applied.
      Sound, announcements, animations and the UI flags [isAnimating],
      [showTutorial] and [isMenuOpen] are presentation and are not part of
      the state: handlers are modelled when the UI lets them start.
    - [step], [run] and [reachable] describe a game played one operation
      after the other: each handler is started in the state the previous one
      has left and runs to its end, and a deal runs its ticks without
      anything in between. The source does not enforce this: the turn of a
      non-human player, a card click and a draw read the state of the render
      they were created in, wait (timers, animation) and then write without
      looking again, and nothing cancels them. [executePlayFrom] and
      [aiTurnPlay] model a play that lands late; the properties stated with
      [reachable] are about an operation started in a well-formed state.
    - [attackStack] is a JS number. The integers of the model are those
      numbers as long as they stay within the safe integers (absolute value
      below 2^53), where [prev + 2] is exact.
    - [Math.random] is an oracle [rnd : nat -> nat]: at loop index [i] of a
      shuffle, [Math.floor(Math.random() * (i + 1))] is [rnd i mod (i + 1)],
      an arbitrary index between 0 and [i]. *)

From Stdlib Require Import ZArith.
From stdpp Require Import list strings pretty.

Local Open Scope Z_scope.
Local Open Scope nat_scope.

(** ** types.ts *)

Inductive Suit := hearts | diamonds | clubs | spades.
Inductive Rank := R2 | R3 | R4 | R5 | R6 | R7 | R8 | R9 | R10 | RJ | RQ | RK | RA.
Inductive PlayerID := south | west | north | east.

Record CardModel := mkCard {
  card_id : string;
  card_suit : Suit;
  card_rank : Rank
}.

#[global] Instance Suit_eq_dec : EqDecision Suit.
Proof. solve_decision. Defined.
#[global] Instance Rank_eq_dec : EqDecision Rank.
Proof. solve_decision. Defined.
#[global] Instance PlayerID_eq_dec : EqDecision PlayerID.
Proof. solve_decision. Defined.
#[global] Instance CardModel_eq_dec : EqDecision CardModel.
Proof. solve_decision. Defined.

(** [Record<PlayerID, CardModel[]>]. *)
Record Hands := mkHands {
  h_south : list CardModel;
  h_west : list CardModel;
  h_north : list CardModel;
  h_east : list CardModel
}.

(** [hands[pid]] *)
Definition hget (h : Hands) (pid : PlayerID) : list CardModel :=
  match pid with
  | south => h_south h
  | west => h_west h
  | north => h_north h
  | east => h_east h
  end.

(** [{ ...h, [pid]: l }] *)
Definition hset (h : Hands) (pid : PlayerID) (l : list CardModel) : Hands :=
  match pid with
  | south => mkHands l (h_west h) (h_north h) (h_east h)
  | west => mkHands (h_south h) l (h_north h) (h_east h)
  | north => mkHands (h_south h) (h_west h) l (h_east h)
  | east => mkHands (h_south h) (h_west h) (h_north h) l
  end.

Record GameState := mkState {
  deck : list CardModel;
  discardPile : list CardModel;
  hands : Hands;
  currentTurn : PlayerID;
  activeSuit : Suit;
  winner : option PlayerID;
  isSuitSelectionOpen : bool;
  gameLog : list string;
  isDealing : bool;
  attackStack : Z
}.

(** The [setX] functions of [useState], as record updates. *)
Definition setDeck (d : list CardModel) (s : GameState) : GameState :=
  mkState d (discardPile s) (hands s) (currentTurn s) (activeSuit s) (winner s)
          (isSuitSelectionOpen s) (gameLog s) (isDealing s) (attackStack s).
Definition setDiscardPile (dp : list CardModel) (s : GameState) : GameState :=
  mkState (deck s) dp (hands s) (currentTurn s) (activeSuit s) (winner s)
          (isSuitSelectionOpen s) (gameLog s) (isDealing s) (attackStack s).
Definition setHands (h : Hands) (s : GameState) : GameState :=
  mkState (deck s) (discardPile s) h (currentTurn s) (activeSuit s) (winner s)
          (isSuitSelectionOpen s) (gameLog s) (isDealing s) (attackStack s).
Definition setCurrentTurn (p : PlayerID) (s : GameState) : GameState :=
  mkState (deck s) (discardPile s) (hands s) p (activeSuit s) (winner s)
          (isSuitSelectionOpen s) (gameLog s) (isDealing s) (attackStack s).
Definition setActiveSuit (su : Suit) (s : GameState) : GameState :=
  mkState (deck s) (discardPile s) (hands s) (currentTurn s) su (winner s)
          (isSuitSelectionOpen s) (gameLog s) (isDealing s) (attackStack s).
Definition setWinner (w : option PlayerID) (s : GameState) : GameState :=
  mkState (deck s) (discardPile s) (hands s) (currentTurn s) (activeSuit s) w
          (isSuitSelectionOpen s) (gameLog s) (isDealing s) (attackStack s).
Definition setIsSuitSelectionOpen (b : bool) (s : GameState) : GameState :=
  mkState (deck s) (discardPile s) (hands s) (currentTurn s) (activeSuit s) (winner s)
          b (gameLog s) (isDealing s) (attackStack s).
Definition setGameLog (l : list string) (s : GameState) : GameState :=
  mkState (deck s) (discardPile s) (hands s) (currentTurn s) (activeSuit s) (winner s)
          (isSuitSelectionOpen s) l (isDealing s) (attackStack s).
Definition setIsDealing (b : bool) (s : GameState) : GameState :=
  mkState (deck s) (discardPile s) (hands s) (currentTurn s) (activeSuit s) (winner s)
          (isSuitSelectionOpen s) (gameLog s) b (attackStack s).
Definition setAttackStack (n : Z) (s : GameState) : GameState :=
  mkState (deck s) (discardPile s) (hands s) (currentTurn s) (activeSuit s) (winner s)
          (isSuitSelectionOpen s) (gameLog s) (isDealing s) n.

(** ** utils.ts *)

Definition SUITS : list Suit := [hearts; diamonds; clubs; spades].
Definition RANKS : list Rank := [R2; R3; R4; R5; R6; R7; R8; R9; R10; RJ; RQ; RK; RA].

(** The string a suit or a rank is in the source. *)
Definition suit_str (su : Suit) : string :=
  match su with
  | hearts => "hearts" | diamonds => "diamonds" | clubs => "clubs" | spades => "spades"
  end.
Definition rank_str (r : Rank) : string :=
  match r with
  | R2 => "2" | R3 => "3" | R4 => "4" | R5 => "5" | R6 => "6" | R7 => "7" | R8 => "8"
  | R9 => "9" | R10 => "10" | RJ => "J" | RQ => "Q" | RK => "K" | RA => "A"
  end.

(** [createDeck]: the two nested loops push one card per (suit, rank) and
    post-increment [idCounter]; the loop state is the pair (deck, idCounter). *)
Definition createDeck : list CardModel :=
  fst (foldl (fun '(deck, idCounter) suit =>
         foldl (fun '(deck, idCounter) rank =>
                  (deck ++ [mkCard ("card-" +:+ pretty idCounter) suit rank],
                   S idCounter))
               (deck, idCounter) RANKS)
       ([], 0) SUITS).

(** [[a[i], a[j]] = [a[j], a[i]]]: the right-hand side is read first, then
    [a[i]] and [a[j]] are written in that order. Both indices are in range
    wherever [shuffleDeck] uses it. *)
Definition swap {A} (a : list A) (i j : nat) : list A :=
  match a !! i, a !! j with
  | Some ai, Some aj => <[j := ai]> (<[i := aj]> a)
  | _, _ => a
  end.

(** The loop of [shuffleDeck], from index [i] down to 1. *)
Fixpoint shuffleLoop {A} (rnd : nat -> nat) (i : nat) (newDeck : list A) : list A :=
  match i with
  | O => newDeck
  | S i' => shuffleLoop rnd i' (swap newDeck i (rnd i mod (i + 1)))
  end.

Definition shuffleDeck {A} (rnd : nat -> nat) (deck : list A) : list A :=
  shuffleLoop rnd (length deck - 1) deck.

Definition isValidMove (card : CardModel) (topCard : option CardModel)
    (activeSuit : Suit) (attackStack : Z) : bool :=
  match topCard with
  | None => false
  | Some topCard =>
    if (0 <? attackStack)%Z then bool_decide (card_rank card = R2)
    else if bool_decide (card_rank card = RJ) then true
    else if bool_decide (card_suit card = activeSuit) then true
    else if bool_decide (card_rank card = card_rank topCard) then true
    else false
  end.

Definition order : list PlayerID := [south; west; north; east].

(** [order.indexOf(current)] *)
Definition indexOf (current : PlayerID) : nat :=
  match current with south => 0 | west => 1 | north => 2 | east => 3 end.

Definition getNextPlayer (current : PlayerID) (skip : bool) : PlayerID :=
  let idx := indexOf current in
  let steps := if skip then 2 else 1 in
  nth ((idx + steps) mod 4) order south.

Definition getPlayerName (id : PlayerID) : string :=
  match id with
  | south => "You" | west => "West AI" | north => "North AI" | east => "East AI"
  end.

(** ** App.tsx: helpers and the draw engine *)

Definition HAND_SIZE : nat := 8.

(** [addLog]: the updater passed to [setGameLog]. *)
Definition addLog (msg : string) (prev : list string) : list string :=
  let newLog := prev ++ [msg] in
  if 50 <? length newLog then tail newLog else newLog.

(** [reshuffleDiscard]. Its call of [addLog] is the second component: the
    log after the call. *)
Definition reshuffleDiscard (rnd : nat -> nat) (currentDiscard : list CardModel)
    (log : list string) : option (list CardModel * CardModel) * list string :=
  if length currentDiscard <=? 1 then (None, log)
  else
    match last currentDiscard with
    | None => (None, log)
    | Some topCard =>
      let rest := take (length currentDiscard - 1) currentDiscard in
      let newDeck := shuffleDeck rnd rest in
      (Some (newDeck, topCard), addLog "Deck reshuffled from discard pile." log)
    end.

Record DrawResult := mkDraw {
  card : option CardModel;
  newDeck : list CardModel;
  newDiscard : list CardModel;
  reshuffled : bool
}.

Definition drawCardForPlayerLogic (rnd : nat -> nat)
    (currentDeck currentDiscard : list CardModel) (log : list string)
    : DrawResult * list string :=
  let d := currentDeck in
  let dp := currentDiscard in
  let pop d dp reshuffled log :=
    match last d with
    | None => (mkDraw None d dp reshuffled, log)
    | Some card => (mkDraw (Some card) (removelast d) dp reshuffled, log)
    end in
  if length d =? 0 then
    match reshuffleDiscard rnd dp log with
    | (None, log) => (mkDraw None d dp false, log)
    | (Some (newDeck, topCard), log) => pop newDeck [topCard] true log
    end
  else pop d dp false log.

(** ** App.tsx: turn logic *)

(** [advanceTurn]. Only the rank of [playedCard] is read. [prev + 2] is the
    addition of JS numbers, exact on the safe integers. *)
Definition advanceTurn (playedCard : option CardModel) (currentPlayer : PlayerID)
    (s : GameState) : GameState :=
  let next := getNextPlayer currentPlayer false in
  match playedCard with
  | Some playedCard =>
    if bool_decide (card_rank playedCard = RA) then
      let s := setGameLog
        (addLog (getPlayerName currentPlayer +:+ " played Ace! Next player skipped.")
                (gameLog s)) s in
      setCurrentTurn (getNextPlayer currentPlayer true) s
    else if bool_decide (card_rank playedCard = R2) then
      setCurrentTurn next (setAttackStack (attackStack s + 2)%Z s)
    else setCurrentTurn next s
  | None => setCurrentTurn next s
  end.

(** The suit a non-human player picks after a Jack: [suitsInHand] counts the
    suits of [newHand]; the keys are visited in the order of the object
    literal and a later suit replaces [bestSuit] only on a strictly larger
    count. [max] starts at -1. *)
Definition suitsInHand (newHand : list CardModel) (su : Suit) : Z :=
  Z.of_nat (length (filter (fun c => card_suit c = su) newHand)).

Definition bestSuitOf (newHand : list CardModel) : Suit :=
  fst (foldl (fun '(bestSuit, max) su =>
                if (max <? suitsInHand newHand su)%Z
                then (su, suitsInHand newHand su) else (bestSuit, max))
             (hearts, (-1)%Z) [hearts; diamonds; clubs; spades]).

Definition executePlay (card : CardModel) (pid : PlayerID) (s : GameState) : GameState :=
  let newHand := filter (fun c => card_id c ≠ card_id card) (hget (hands s) pid) in
  let s := setHands (hset (hands s) pid newHand) s in
  let s := setDiscardPile (discardPile s ++ [card]) s in
  if length newHand =? 0 then setWinner (Some pid) s
  else if bool_decide (card_rank card = RJ) then
    if bool_decide (pid = south) then setIsSuitSelectionOpen true s
    else
      let bestSuit := bestSuitOf newHand in
      let s := setActiveSuit bestSuit s in
      let s := setGameLog
        (addLog (getPlayerName pid +:+ " played Jack and chose " +:+ suit_str bestSuit +:+ ".")
                (gameLog s)) s in
      advanceTurn (Some card) pid s
  else
    let s := setActiveSuit (card_suit card) s in
    let s := setGameLog
      (addLog (getPlayerName pid +:+ " played " +:+ rank_str (card_rank card) +:+ " of "
               +:+ suit_str (card_suit card) +:+ ".")
              (gameLog s)) s in
    advanceTurn (Some card) pid s.

(** The guard shared by [handleCardClick] and [handleDeckClick]. *)
Definition humanBlocked (s : GameState) : bool :=
  negb (bool_decide (currentTurn s = south)) || bool_decide (winner s ≠ None)
  || isSuitSelectionOpen s.

Definition handleCardClick (card : CardModel) (s : GameState) : GameState :=
  if humanBlocked s then s
  else
    let topCard := last (discardPile s) in
    if isValidMove card topCard (activeSuit s) (attackStack s)
    then executePlay card south s else s.

(** The state of the [for] loop of [performDraw]. *)
Record DrawLoop := mkLoop {
  currentD : list CardModel;
  currentDP : list CardModel;
  drawnCards : list CardModel;
  didReshuffle : bool;
  loopLog : list string
}.

Fixpoint drawLoop (rnd : nat -> nat) (count : nat) (st : DrawLoop) : DrawLoop :=
  match count with
  | O => st
  | S count' =>
    let '(res, log) := drawCardForPlayerLogic rnd (currentD st) (currentDP st) (loopLog st) in
    let currentD := newDeck res in
    let didReshuffle := if reshuffled res then true else didReshuffle st in
    let currentDP := if reshuffled res then newDiscard res else currentDP st in
    match card res with
    | Some c =>
      drawLoop rnd count' (mkLoop currentD currentDP (drawnCards st ++ [c]) didReshuffle log)
    | None => mkLoop currentD currentDP (drawnCards st) didReshuffle log
    end
  end.

(** [performDraw]. [count] is a JS number; the loop runs [i = 0 .. count-1]. *)
Definition performDraw (rnd : nat -> nat) (pid : PlayerID) (count : Z)
    (s : GameState) : GameState :=
  let st := drawLoop rnd (Z.to_nat count)
              (mkLoop (deck s) (discardPile s) [] false (gameLog s)) in
  let s1 := setGameLog (loopLog st) s in
  let s1 := if didReshuffle st then setDiscardPile (currentDP st) s1 else s1 in
  let s1 := setDeck (currentD st) s1 in
  let s1 := setHands (hset (hands s1) pid (hget (hands s1) pid ++ drawnCards st)) s1 in
  let s1 :=
    if (0 <? attackStack s)%Z then
      setAttackStack 0%Z
        (setGameLog (addLog (getPlayerName pid +:+ " drew "
                             +:+ pretty (length (drawnCards st))
                             +:+ " cards (Attack Penalty).") (gameLog s1)) s1)
    else setGameLog (addLog (getPlayerName pid +:+ " drew a card.") (gameLog s1)) s1 in
  advanceTurn None pid s1.

Definition drawCount (s : GameState) : Z :=
  if (0 <? attackStack s)%Z then attackStack s else 1%Z.

Definition handleDeckClick (rnd : nat -> nat) (s : GameState) : GameState :=
  if humanBlocked s then s
  else performDraw rnd south (drawCount s) s.

(** [handleSuitSelect]. The card handed to [advanceTurn] is the literal
    [{ rank: 'J', suit }], which has no id; [advanceTurn] reads its rank only. *)
Definition handleSuitSelect (suit : Suit) (s : GameState) : GameState :=
  let s := setActiveSuit suit s in
  let s := setIsSuitSelectionOpen false s in
  let s := setGameLog (addLog ("You changed suit to " +:+ suit_str suit +:+ ".") (gameLog s)) s in
  advanceTurn (Some (mkCard "" suit RJ)) south s.

(** ** App.tsx: the decision policy of the non-human players

    The choice made inside [performAITurn], from [validMoves] to the final
    [if (!choice) choice = validMoves[0]]. [find] is [List.find]; [l[0]] is
    [head l]. *)
Definition validMovesOf (hand : list CardModel) (topCard : CardModel)
    (activeSuit : Suit) (attackStack : Z) : list CardModel :=
  filter (fun c => isValidMove c (Some topCard) activeSuit attackStack = true) hand.

Definition orElse {A} (x y : option A) : option A :=
  match x with Some _ => x | None => y end.

Definition aiChoice (hand : list CardModel) (topCard : CardModel)
    (activeSuit : Suit) (attackStack : Z) : option CardModel :=
  let validMoves := validMovesOf hand topCard activeSuit attackStack in
  if 0 <? length validMoves then
    let choice :=
      if (0 <? attackStack)%Z then head validMoves
      else
        let nonJacks := filter (fun c => card_rank c ≠ RJ) validMoves in
        if 0 <? length nonJacks then
          orElse (orElse
            (List.find (fun c => bool_decide (card_suit c = activeSuit)) nonJacks)
            (List.find (fun c => bool_decide (card_rank c = card_rank topCard)) nonJacks))
            (head nonJacks)
        else head validMoves in
    orElse choice (head validMoves)
  else None.

(** The effect that runs the turn of a non-human player. *)
Definition performAITurn (rnd : nat -> nat) (s : GameState) : GameState :=
  if bool_decide (currentTurn s = south) || bool_decide (winner s ≠ None) || isDealing s
  then s
  else
    let pid := currentTurn s in
    let hand := hget (hands s) pid in
    match last (discardPile s) with
    | None => s
    | Some topCard =>
      match aiChoice hand topCard (activeSuit s) (attackStack s) with
      | Some choice => executePlay choice pid s
      | None => performDraw rnd pid (drawCount s) s
      end
    end.

(** The effect on [hands, discardPile, isDealing]: [Object.entries(hands)]
    visits the four players in key order; a later [setWinner] overrides an
    earlier one. *)
Definition winnerEffect (s : GameState) : GameState :=
  if isDealing s then s
  else
    foldl (fun s' pid =>
             if (length (hget (hands s) pid) =? 0) && (0 <? length (discardPile s))
             then setWinner (Some pid) s' else s')
          s [south; west; north; east].

(** ** App.tsx: a play that lands late

    [executePlay] belongs to a render: [hands[pid]] is the hand of that
    render [c], while every update it queues is applied to the state [s] it
    lands in ([setHands], [setDiscardPile], [addLog] and [setAttackStack] by
    updater functions, the others by values that do not depend on the
    state). *)
Definition executePlayFrom (c : GameState) (card : CardModel) (pid : PlayerID)
    (s : GameState) : GameState :=
  let newHand := filter (fun x => card_id x ≠ card_id card) (hget (hands c) pid) in
  let s := setHands (hset (hands s) pid newHand) s in
  let s := setDiscardPile (discardPile s ++ [card]) s in
  if length newHand =? 0 then setWinner (Some pid) s
  else if bool_decide (card_rank card = RJ) then
    if bool_decide (pid = south) then setIsSuitSelectionOpen true s
    else
      let bestSuit := bestSuitOf newHand in
      let s := setActiveSuit bestSuit s in
      let s := setGameLog
        (addLog (getPlayerName pid +:+ " played Jack and chose " +:+ suit_str bestSuit +:+ ".")
                (gameLog s)) s in
      advanceTurn (Some card) pid s
  else
    let s := setActiveSuit (card_suit card) s in
    let s := setGameLog
      (addLog (getPlayerName pid +:+ " played " +:+ rank_str (card_rank card) +:+ " of "
               +:+ suit_str (card_suit card) +:+ ".")
              (gameLog s)) s in
    advanceTurn (Some card) pid s.

(** What the effect of a non-human turn, run in the render [c], decides
    before its waits when it decides to play: the guard, the top card and the
    choice are all taken from [c]. After the waits it calls
    [executePlay(choice, pid)] of that render, with no second look at the
    winner or at the turn. *)
Definition aiTurnPlay (c : GameState) : option (CardModel * PlayerID) :=
  if bool_decide (currentTurn c = south) || bool_decide (winner c ≠ None) || isDealing c
  then None
  else
    match last (discardPile c) with
    | None => None
    | Some topCard =>
      match aiChoice (hget (hands c) (currentTurn c)) topCard (activeSuit c) (attackStack c) with
      | Some choice => Some (choice, currentTurn c)
      | None => None
      end
    end.

(** ** App.tsx: the deal *)

(** One tick of [dealInterval]: the updater of [setDeck] pops a card and
    appends it to the hand of [players[dealIndex % 4]]. *)
Definition dealTick (dealIndex : nat) (s : GameState) : GameState :=
  let targetPlayer := nth (dealIndex mod 4) [south; west; north; east] south in
  match last (deck s) with
  | Some card =>
    setDeck (removelast (deck s))
      (setHands (hset (hands s) targetPlayer (hget (hands s) targetPlayer ++ [card])) s)
  | None => s
  end.

(** The ticks [dealIndex, dealIndex + 1, ..] while [dealIndex < totalCardsToDeal];
    [n] is the number of ticks left. *)
Fixpoint dealTicks (n : nat) (dealIndex : nat) (s : GameState) : GameState :=
  match n with
  | O => s
  | S n' => dealTicks n' (S dealIndex) (dealTick dealIndex s)
  end.

Definition finishDealing (s : GameState) : GameState :=
  let finalDeck := removelast (deck s) in
  let s :=
    match last (deck s) with
    | Some startCard =>
      let s := setDiscardPile [startCard] s in
      let s := setActiveSuit (card_suit startCard) s in
      if bool_decide (card_rank startCard = R2) then
        setAttackStack 2%Z
          (setGameLog (addLog "Game starts with a 2! First player must play 2 or draw 2."
                              (gameLog s)) s)
      else
        setAttackStack 0%Z
          (setGameLog (addLog ("Game Started. Top card: " +:+ rank_str (card_rank startCard)
                               +:+ " of " +:+ suit_str (card_suit startCard))
                              (gameLog s)) s)
    | None => s
    end in
  setDeck finalDeck (setCurrentTurn south (setIsDealing false s)).

(** [startDeal], with the ticks of its interval and [finishDealing] run to
    the end: the state the game is in when the deal is over, provided no
    other handler writes to the state while the interval runs. *)
Definition startDeal (rnd : nat -> nat) (s : GameState) : GameState :=
  let s := setWinner None s in
  let s := setGameLog [] s in
  let s := setIsDealing true s in
  let s := setHands (mkHands [] [] [] []) s in
  let s := setAttackStack 0%Z s in
  let fullDeck := shuffleDeck rnd createDeck in
  let s := setDeck fullDeck s in
  let s := setDiscardPile [] s in
  let totalCardsToDeal := HAND_SIZE * 4 in
  finishDealing (dealTicks totalCardsToDeal 0 s).

(** The initial values of the [useState] hooks. *)
Definition initialState : GameState :=
  mkState [] [] (mkHands [] [] [] []) south spades None false [] false 0%Z.

(** ** The operations of a game

    What can happen once the deal is over: the human clicks the card at
    position [i] of the hand shown to them, clicks the deck, picks a suit
    (the four buttons are rendered only while [isSuitSelectionOpen]), or the
    effect of a non-human turn runs. Each carries the oracle of the shuffle
    it may perform. The winner effect runs after the state changed. *)
Inductive Op :=
  | CardClick (i : nat)
  | DeckClick (rnd : nat -> nat)
  | SuitSelect (suit : Suit)
  | AITurn (rnd : nat -> nat).

Definition handle (op : Op) (s : GameState) : GameState :=
  match op with
  | CardClick i =>
    match h_south (hands s) !! i with
    | Some card => handleCardClick card s
    | None => s
    end
  | DeckClick rnd => handleDeckClick rnd s
  | SuitSelect suit => if isSuitSelectionOpen s then handleSuitSelect suit s else s
  | AITurn rnd => performAITurn rnd s
  end.

Definition step (op : Op) (s : GameState) : GameState := winnerEffect (handle op s).

Definition run (ops : list Op) (s : GameState) : GameState :=
  foldl (fun s op => step op s) s ops.

(** States a game passes through after a deal when its operations run one
    after the other. The deal may follow any earlier state (the first game
    starts from [initialState], a restart from wherever the previous game
    was). *)
Inductive reachable : GameState -> Prop :=
  | reach_deal rnd s0 : reachable (startDeal rnd s0)
  | reach_step op s : reachable s -> reachable (step op s).

(** All cards of the table: deck, the four hands, discard pile. *)
Definition handCards (h : Hands) : list CardModel :=
  h_south h ++ h_west h ++ h_north h ++ h_east h.

Definition allCards (s : GameState) : list CardModel :=
  deck s ++ handCards (hands s) ++ discardPile s.

(** ** Sample games

    A player who never plays: the human draws, picks hearts when asked. *)
Definition passiveOp (s : GameState) : Op :=
  if bool_decide (currentTurn s = south) then
    if isSuitSelectionOpen s then SuitSelect hearts else DeckClick (fun i => i)
  else AITurn (fun i => i).

Fixpoint passive (n : nat) (s : GameState) : GameState :=
  match n with
  | O => s
  | S n' => passive n' (step (passiveOp s) s)
  end.

(** The oracle of a shuffle that leaves every card in place, and the game
    dealt with it in which the human only draws: West plays its last card in
    the 52nd operation; before the 41st the deck is empty. *)
Definition oracle0 : nat -> nat := fun i => i.
Definition game0 : GameState := startDeal oracle0 initialState.
Definition endgame : GameState := passive 52 game0.
Definition emptyDeckState : GameState := passive 40 game0.

(** In the same game, after the first draw of the human West is to move
    and its policy plays the Jack of diamonds; after 51 operations West holds
    the 2 of clubs alone and its policy plays it. *)
Definition westToMove : GameState := passive 1 game0.
Definition westLastCard : GameState := passive 51 game0.

(** The turn of West in [westToMove] landing twice, both times with the
    hand of that render. *)
Definition playedTwice : GameState :=
  executePlayFrom westToMove (mkCard "card-22" diamonds RJ) west
    (executePlayFrom westToMove (mkCard "card-22" diamonds RJ) west westToMove).

(** The turn of West in [westLastCard] landing a second time, after the first
    has made West the winner. *)
Definition playedAfterWin : GameState :=
  executePlayFrom westLastCard (mkCard "card-26" clubs R2) west
    (step (AITurn oracle0) westLastCard).

(** In the same game, after 20 operations North is under an attack of 2 and
    holds no 2. *)
Definition attackState : GameState := passive 20 game0.

(** The same deal, the human opening with the Jack of clubs, the fifth card
    of the hand: a suit is to be picked. *)
Definition suitPendingState : GameState := step (CardClick 4) game0.

(** A table with no card left to draw: the deck is empty and the discard
    pile holds one card, the other 51 being in the hands. *)
Definition stuckState : GameState :=
  mkState [] (take 1 createDeck)
    (mkHands (take 13 (drop 1 createDeck)) (take 13 (drop 14 createDeck))
             (take 13 (drop 27 createDeck)) (drop 40 createDeck))
    west hearts None false [] false 0%Z.

(** The game dealt with another oracle, the human only drawing: after 33
    operations North is to play and holds a Jack alone. *)
Definition oracle6 : nat -> nat := fun i => 6 * i * i + 42 + i.
Definition lastJackState : GameState := passive 33 (startDeal oracle6 initialState).

(** The policy as the specification words it: among the legal moves, first
    one of the active suit, else one of the rank of the top card, else any,
    falling back on the first legal move; under attack the first legal move. *)
Definition specPolicy (hand : list CardModel) (topCard : CardModel)
    (activeSuit : Suit) (attackStack : Z) : option CardModel :=
  let legal := validMovesOf hand topCard activeSuit attackStack in
  if (0 <? attackStack)%Z then head legal
  else
    orElse (orElse (orElse
      (List.find (fun c => bool_decide (card_suit c = activeSuit)) legal)
      (List.find (fun c => bool_decide (card_rank c = card_rank topCard)) legal))
      (head legal)) (head legal).

(** * Notions of the specification

    What the properties below are stated with. *)

(** The rule of the specification, in its words: no top card, no legal move;
    under attack only a 2; otherwise a Jack always, and any other card when
    it follows the active suit or the rank of the top card. *)
Definition legalMove (card : CardModel) (topCard : option CardModel)
    (activeSuit : Suit) (attackStack : Z) : Prop :=
  match topCard with
  | None => False
  | Some top =>
    if decide (attackStack > 0)%Z then card_rank card = R2
    else card_rank card = RJ
         ∨ (card_rank card ≠ RJ
            ∧ (card_suit card = activeSuit ∨ card_rank card = card_rank top))
  end.

(** Several messages logged one after the other. *)
Definition addLogs (msgs : list string) (log : list string) : list string :=
  foldl (fun l m => addLog m l) log msgs.

(** The last [n] entries of a list. *)
Definition lastN {A} (n : nat) (l : list A) : list A := drop (length l - n) l.

(** [log'] is [log] after some calls of [addLog]. *)
Definition logged (log log' : list string) : Prop :=
  exists msgs, log' = addLogs msgs log.

(** The player served by tick [dealIndex] of the deal. *)
Definition targetPlayer (dealIndex : nat) : PlayerID :=
  nth (dealIndex mod 4) [south; west; north; east] south.

(** The invariant of a game: the 52 cards are on the table, the discard
    pile is not empty, the deal is over, the suit selection is open only
    on the turn of the human and before a win, a player without cards is
    the winner, the attack stack is even and not negative, and the log
    holds at most 50 entries. *)
Record Inv (s : GameState) : Prop := mkInv {
  inv_cards : allCards s ≡ₚ createDeck;
  inv_discard : discardPile s ≠ [];
  inv_dealing : isDealing s = false;
  inv_suit : isSuitSelectionOpen s = true -> currentTurn s = south /\ winner s = None;
  inv_winner : forall p, hget (hands s) p = [] -> winner s = Some p;
  inv_attack : exists k : nat, attackStack s = (2 * Z.of_nat k)%Z;
  inv_log : length (gameLog s) <= 50
}.

(** Case analysis on the branches of [executePlay] and [advanceTurn]. *)
Ltac play_cases :=
  unfold executePlay, advanceTurn;
  repeat first [case_bool_decide | case_match]; simpl.

(** ** App.tsx: what the render derives from the state

    [isSouthTurn] and the [playable] flag handed to each card of the human
    hand (with [isAnimating], [showTutorial] and [isMenuOpen] off);
    [topDiscard] is [discardPile[discardPile.length - 1]]. *)
Definition isSouthTurn (s : GameState) : bool :=
  bool_decide (currentTurn s = south) && negb (bool_decide (winner s ≠ None))
  && negb (isDealing s) && negb (isSuitSelectionOpen s).

Definition playable (card : CardModel) (s : GameState) : bool :=
  match last (discardPile s) with
  | Some topDiscard =>
    isSouthTurn s && isValidMove card (Some topDiscard) (activeSuit s) (attackStack s)
  | None => false
  end.

(** ** Further notions *)

(** How many of the ticks [i, i + 1, .., i + n - 1] of the deal serve [p]. *)
Definition ticksFor (p : PlayerID) (n i : nat) : nat :=
  length (filter (fun j => targetPlayer j = p) (seq i n)).

(** The cards a draw of [count] can still supply: the deck, and the discard
    pile without its top card. *)
Definition drawable (s : GameState) : nat :=
  length (deck s) + (length (discardPile s) - 1).

(** The position of a suit among the keys of [suitsInHand], the order in
    which the non-human player compares the counts. *)
Definition suitPrecedence (su : Suit) : nat :=
  match su with hearts => 0 | diamonds => 1 | clubs => 2 | spades => 3 end.

(** The safe integers on which adding 2 to a JS number is exact. *)
Definition safeToAdd2 (n : Z) : Prop := (- 2 ^ 53 <= n <= 2 ^ 53 - 2)%Z.

(** The active suit agrees with the top of the discard pile: while a suit
    selection is pending the top card is a Jack, and otherwise a top card
    that is not a Jack has the active suit. *)
Definition suitFollowsTop (s : GameState) : Prop :=
  exists top,
    last (discardPile s) = Some top
    /\ (isSuitSelectionOpen s = true -> card_rank top = RJ)
    /\ (isSuitSelectionOpen s = false -> card_rank top ≠ RJ ->
        activeSuit s = card_suit top).

(** * Properties *)

(** ** The shuffle is a permutation *)

Section Shuffle.
Context {A : Type}.
Implicit Types a : list A.

Lemma insert_Permutation_cons a j x y :
  a !! j = Some y -> y :: <[j := x]> a ≡ₚ x :: a.
Proof.
  revert j; induction a as [|z a IH]; intros [|j] Hj; simplify_eq/=.
  - apply Permutation_swap.
  - rewrite (Permutation_swap z y), (IH _ Hj). apply Permutation_swap.
Qed.

Lemma swap_Permutation a i j : swap a i j ≡ₚ a.
Proof.
  unfold swap.
  destruct (a !! i) as [ai|] eqn:Hi; [|done].
  destruct (a !! j) as [aj|] eqn:Hj; [|done].
  revert i j Hi Hj; induction a as [|z a IH]; intros [|i] [|j] Hi Hj;
    simplify_eq/=; try done.
  - by apply insert_Permutation_cons.
  - by apply insert_Permutation_cons.
  - by rewrite IH.
Qed.

Lemma shuffleLoop_Permutation rnd i a : shuffleLoop rnd i a ≡ₚ a.
Proof.
  revert a; induction i as [|i IH]; intros a; simpl; [done|].
  by rewrite IH, swap_Permutation.
Qed.

Lemma shuffleDeck_Permutation rnd a : shuffleDeck rnd a ≡ₚ a.
Proof. apply shuffleLoop_Permutation. Qed.

Lemma shuffleDeck_length rnd a : length (shuffleDeck rnd a) = length a.
Proof. by rewrite shuffleDeck_Permutation. Qed.

Lemma shuffleDeck_nil rnd a : shuffleDeck rnd a = [] -> a = [].
Proof.
  intros H. apply Permutation_nil_r. rewrite <- H.
  symmetry. apply shuffleDeck_Permutation.
Qed.
End Shuffle.

(** ** Lists as stacks *)

Section Stack.
Context {A : Type}.
Implicit Types l : list A.

Lemma last_None_nil l : last l = None -> l = [].
Proof.
  intros H. destruct (decide (l = [])) as [|Hne]; [done|].
  apply last_is_Some in Hne as [x Hx]. congruence.
Qed.

Lemma pop_split l x : last l = Some x -> l = removelast l ++ [x].
Proof.
  intros [l' ->]%last_Some. by rewrite removelast_last.
Qed.

Lemma pop_Permutation l x : last l = Some x -> l ≡ₚ x :: removelast l.
Proof.
  intros H. rewrite (pop_split l x H) at 1.
  by rewrite (comm (++)).
Qed.

Lemma take_pred_removelast l : take (length l - 1) l = removelast l.
Proof.
  destruct (last l) as [x|] eqn:Hl.
  - apply last_Some in Hl as [l' ->].
    rewrite removelast_last, length_app. simpl.
    replace (length l' + 1 - 1) with (length l') by lia.
    apply take_app_length.
  - by rewrite (last_None_nil l Hl).
Qed.
End Stack.

(** ** The event log *)

Lemma addLog_short msg log : length log < 50 -> addLog msg log = log ++ [msg].
Proof.
  intros H. unfold addLog. rewrite length_app. simpl.
  destruct (50 <? length log + 1) eqn:E; [|done].
  apply Nat.ltb_lt in E. lia.
Qed.

Lemma addLog_full msg log : 50 <= length log -> addLog msg log = tail log ++ [msg].
Proof.
  intros H. unfold addLog. rewrite length_app. simpl.
  destruct (50 <? length log + 1) eqn:E.
  - destruct log; [simpl in H; lia|done].
  - apply Nat.ltb_ge in E. lia.
Qed.

Lemma addLog_lastN msg log :
  length log <= 50 -> addLog msg log = lastN 50 (log ++ [msg]).
Proof.
  intros H. unfold lastN. rewrite length_app. simpl.
  destruct (decide (length log < 50)) as [Hlt|Hge].
  - rewrite addLog_short by done.
    replace (length log + 1 - 50) with 0 by lia. done.
  - rewrite addLog_full by lia.
    replace (length log + 1 - 50) with 1 by lia.
    destruct log; [simpl in *; lia|done].
Qed.

Lemma addLog_length msg log : length log <= 50 -> length (addLog msg log) <= 50.
Proof.
  intros H. rewrite addLog_lastN by done. unfold lastN.
  rewrite length_drop, length_app. simpl. lia.
Qed.

Lemma lastN_lastN_app {A} n (l k : list A) :
  lastN n (lastN n l ++ k) = lastN n (l ++ k).
Proof.
  unfold lastN. rewrite !length_app, length_drop, !drop_app, length_drop, drop_drop.
  f_equal; f_equal; lia.
Qed.

Lemma addLogs_lastN msgs log :
  length log <= 50 -> addLogs msgs log = lastN 50 (log ++ msgs).
Proof.
  revert log; induction msgs as [|m msgs IH]; intros log H; simpl.
  - rewrite app_nil_r. unfold lastN.
    replace (length log - 50) with 0 by lia. done.
  - unfold addLogs in *. simpl. rewrite IH by by apply addLog_length.
    rewrite addLog_lastN by done.
    rewrite lastN_lastN_app. by rewrite <- app_assoc.
Qed.

Lemma addLogs_app msgs1 msgs2 log :
  addLogs (msgs1 ++ msgs2) log = addLogs msgs2 (addLogs msgs1 log).
Proof. unfold addLogs. apply foldl_app. Qed.

Lemma addLogs_length msgs log : length log <= 50 -> length (addLogs msgs log) <= 50.
Proof.
  revert log; induction msgs as [|m msgs IH]; intros log H; [done|].
  apply IH. by apply addLog_length.
Qed.

Lemma logged_refl log : logged log log.
Proof. by exists []. Qed.

Lemma logged_addLog msg log log' : logged log log' -> logged log (addLog msg log').
Proof. intros [msgs ->]. exists (msgs ++ [msg]). by rewrite addLogs_app. Qed.

Lemma logged_trans l1 l2 l3 : logged l1 l2 -> logged l2 l3 -> logged l1 l3.
Proof. intros [m1 ->] [m2 ->]. exists (m1 ++ m2). by rewrite addLogs_app. Qed.

#[local] Hint Resolve logged_refl logged_addLog : core.

(** ** The draw engine *)

Lemma reshuffleDiscard_short rnd dp log :
  length dp <= 1 -> reshuffleDiscard rnd dp log = (None, log).
Proof.
  intros H. unfold reshuffleDiscard.
  destruct (length dp <=? 1) eqn:E; [done|]. apply Nat.leb_gt in E. lia.
Qed.

Lemma reshuffleDiscard_long rnd rest top log :
  rest ≠ [] ->
  reshuffleDiscard rnd (rest ++ [top]) log
  = (Some (shuffleDeck rnd rest, top), addLog "Deck reshuffled from discard pile." log).
Proof.
  intros H. unfold reshuffleDiscard.
  destruct (length (rest ++ [top]) <=? 1) eqn:E.
  - apply Nat.leb_le in E. rewrite length_app in E. simpl in E.
    destruct rest; [done|simpl in E; lia].
  - rewrite last_snoc, take_pred_removelast, removelast_last. done.
Qed.

(** The three cases of [drawCardForPlayerLogic]. *)
Lemma draw_from_deck rnd d c dp log :
  drawCardForPlayerLogic rnd (d ++ [c]) dp log = (mkDraw (Some c) d dp false, log).
Proof.
  unfold drawCardForPlayerLogic.
  destruct (length (d ++ [c]) =? 0) eqn:E.
  - apply Nat.eqb_eq in E. rewrite length_app in E. simpl in E. lia.
  - by rewrite last_snoc, removelast_last.
Qed.

Lemma draw_exhausted rnd dp log :
  length dp <= 1 ->
  drawCardForPlayerLogic rnd [] dp log = (mkDraw None [] dp false, log).
Proof.
  intros H. unfold drawCardForPlayerLogic. simpl.
  by rewrite reshuffleDiscard_short.
Qed.

Lemma draw_reshuffle rnd rest top log :
  rest ≠ [] ->
  exists c,
    last (shuffleDeck rnd rest) = Some c /\
    drawCardForPlayerLogic rnd [] (rest ++ [top]) log
    = (mkDraw (Some c) (removelast (shuffleDeck rnd rest)) [top] true,
       addLog "Deck reshuffled from discard pile." log).
Proof.
  intros H.
  destruct (last (shuffleDeck rnd rest)) as [c|] eqn:Hl.
  - exists c. split; [done|].
    unfold drawCardForPlayerLogic. simpl.
    rewrite reshuffleDiscard_long by done. by rewrite Hl.
  - apply last_None_nil, shuffleDeck_nil in Hl. done.
Qed.

(** A list is empty, a singleton, or has a last element on a non-empty rest. *)
Lemma discard_cases {A} (dp : list A) :
  length dp <= 1 \/ exists rest top, rest ≠ [] /\ dp = rest ++ [top].
Proof.
  destruct (last dp) as [top|] eqn:Hl.
  - apply last_Some in Hl as [rest ->].
    destruct rest as [|x rest]; [left; simpl; lia|].
    right. by exists (x :: rest), top.
  - apply last_None_nil in Hl as ->. left. simpl. lia.
Qed.

Lemma deck_cases {A} (d : list A) : d = [] \/ exists d' c, d = d' ++ [c].
Proof.
  destruct (last d) as [c|] eqn:Hl.
  - apply last_Some in Hl as [d' ->]. right. eauto.
  - left. by apply last_None_nil.
Qed.

(** One draw moves cards between the piles, and loses or copies none. *)
Lemma drawCard_sound rnd d dp log res log' :
  drawCardForPlayerLogic rnd d dp log = (res, log') ->
  newDeck res ++ option_list (card res) ++ newDiscard res ≡ₚ d ++ dp
  /\ (reshuffled res = false -> newDiscard res = dp)
  /\ (dp ≠ [] -> newDiscard res ≠ [])
  /\ logged log log'.
Proof.
  intros H.
  destruct (deck_cases d) as [->|(d' & c & ->)].
  - destruct (discard_cases dp) as [Hs|(rest & top & Hne & ->)].
    + rewrite draw_exhausted in H by done. simplify_eq/=. auto.
    + destruct (draw_reshuffle rnd rest top log Hne) as (c & Hc & Heq).
      rewrite Heq in H. simplify_eq/=. split; [|repeat split; auto; done].
      transitivity (shuffleDeck rnd rest ++ [top]).
      * rewrite (pop_split _ _ Hc) at 2. by rewrite <- app_assoc.
      * by rewrite shuffleDeck_Permutation.
  - rewrite draw_from_deck in H. simplify_eq/=. repeat split; auto.
    by rewrite <- app_assoc.
Qed.

Lemma drawLoop_didReshuffle rnd n st :
  didReshuffle st = true -> didReshuffle (drawLoop rnd n st) = true.
Proof.
  revert st; induction n as [|n IH]; intros st H; simpl; [done|].
  destruct (drawCardForPlayerLogic _ _ _ _) as [res log].
  destruct (card res); [apply IH|]; simpl; rewrite H; by destruct (reshuffled res).
Qed.

Lemma drawLoop_sound rnd n st :
  let st' := drawLoop rnd n st in
  currentD st' ++ drawnCards st' ++ currentDP st'
    ≡ₚ currentD st ++ drawnCards st ++ currentDP st
  /\ (didReshuffle st' = false -> currentDP st' = currentDP st)
  /\ (currentDP st ≠ [] -> currentDP st' ≠ [])
  /\ logged (loopLog st) (loopLog st')
  /\ exists k, drawnCards st' = drawnCards st ++ k.
Proof.
  revert st; induction n as [|n IH]; intros st; simpl.
  { repeat split; auto. exists []. by rewrite app_nil_r. }
  destruct (drawCardForPlayerLogic _ _ _ _) as [res log] eqn:Hd.
  apply drawCard_sound in Hd as (Hp & Hr & Hne & Hl).
  assert (Hp' : newDeck res ++ option_list (card res)
                ++ (if reshuffled res then newDiscard res else currentDP st)
                ≡ₚ currentD st ++ currentDP st).
  { destruct (reshuffled res); [done|]. by rewrite <- Hr at 1. }
  assert (Hne' : currentDP st ≠ [] ->
                 (if reshuffled res then newDiscard res else currentDP st) ≠ []).
  { destruct (reshuffled res); auto. }
  rewrite (Permutation_app_swap_app (currentD st)), <- Hp'.
  destruct (card res) as [c|] eqn:Hc; simpl in *.
  - match goal with |- context [drawLoop rnd n ?x] => specialize (IH x) end.
    simpl in IH. destruct IH as (IHp & IHr & IHne & IHl & k & IHk).
    split; [|split; [|split; [|split]]].
    + rewrite IHp, <- app_assoc.
      by rewrite (Permutation_app_swap_app (newDeck res)).
    + intros Hf. destruct (reshuffled res) eqn:Hres.
      * rewrite drawLoop_didReshuffle in Hf by done. done.
      * by apply IHr.
    + intros Hn. apply IHne. auto.
    + eapply logged_trans; eauto.
    + exists ([c] ++ k). by rewrite IHk, <- app_assoc.
  - split; [|split; [|split; [|split]]].
    + by rewrite (Permutation_app_swap_app (newDeck res)).
    + intros Hf. destruct (reshuffled res); done.
    + done.
    + done.
    + exists []. by rewrite app_nil_r.
Qed.

(** ** Hands *)

Lemma hget_hset h pid l : hget (hset h pid l) pid = l.
Proof. by destruct pid. Qed.

Lemma hget_hset_ne h pid q l : pid ≠ q -> hget (hset h pid l) q = hget h q.
Proof. by destruct pid, q. Qed.

Lemma hset_hget h pid : hset h pid (hget h pid) = h.
Proof. by destruct h, pid. Qed.

Lemma handCards_hset h pid l :
  handCards (hset h pid l) ≡ₚ l ++ handCards (hset h pid []).
Proof.
  destruct pid; unfold handCards; simpl.
  - done.
  - apply Permutation_app_swap_app.
  - by rewrite (Permutation_app_swap_app (h_west h)), (Permutation_app_swap_app (h_south h)).
  - rewrite app_nil_r.
    etransitivity;
      [|apply (Permutation_app_comm (h_south h ++ h_west h ++ h_north h) l)].
    by rewrite <- !app_assoc.
Qed.

Lemma handCards_hget h pid : handCards h ≡ₚ hget h pid ++ handCards (hset h pid []).
Proof. rewrite <- handCards_hset. by rewrite hset_hget. Qed.

(** Replacing a hand by a permutation of it and of [k] moves [k] out of the hands. *)
Lemma handCards_take h pid l k :
  hget h pid ≡ₚ l ++ k -> handCards h ≡ₚ handCards (hset h pid l) ++ k.
Proof.
  intros H. rewrite (handCards_hget h pid), (handCards_hset h pid l), H.
  rewrite <- !app_assoc. apply Permutation_app_head, (comm (++)).
Qed.

Lemma handCards_give h pid k :
  handCards (hset h pid (hget h pid ++ k)) ≡ₚ handCards h ++ k.
Proof.
  symmetry. rewrite (handCards_take (hset h pid (hget h pid ++ k)) pid (hget h pid) k).
  - destruct h, pid; simpl; done.
  - by rewrite hget_hset.
Qed.

(** Removing a card by id removes that card only, when ids are unique. *)
Lemma filter_id_remove (l : list CardModel) c :
  NoDup (card_id <$> l) -> c ∈ l ->
  l ≡ₚ filter (fun c' => card_id c' ≠ card_id c) l ++ [c].
Proof.
  induction l as [|x l IH]; intros Hnd Hin; [by apply elem_of_nil in Hin|].
  rewrite fmap_cons in Hnd. apply NoDup_cons in Hnd as [Hx Hnd].
  apply elem_of_cons in Hin as [->|Hin].
  - rewrite filter_cons_False by (intros H; by apply H).
    assert (Hall : filter (fun c' => card_id c' ≠ card_id x) l = l).
    { clear IH Hnd. induction l as [|y l IH]; [done|].
      rewrite fmap_cons in Hx. apply not_elem_of_cons in Hx as [Hxy Hx].
      rewrite filter_cons_True by done. f_equal. by apply IH. }
    rewrite Hall. by rewrite (comm (++)).
  - assert (card_id x ≠ card_id c).
    { intros Heq. apply Hx. rewrite Heq. by apply list_elem_of_fmap_2. }
    rewrite filter_cons_True by done. simpl. apply Permutation_skip. by apply IH.
Qed.

(** ** What a play changes *)

Section Play.
Variables (card : CardModel) (pid : PlayerID) (s : GameState).

Local Abbreviation newHand :=
  (filter (fun c => card_id c ≠ card_id card) (hget (hands s) pid)).

Lemma executePlay_deck : deck (executePlay card pid s) = deck s.
Proof. by play_cases. Qed.

Lemma executePlay_discardPile :
  discardPile (executePlay card pid s) = discardPile s ++ [card].
Proof. by play_cases. Qed.

Lemma executePlay_hands :
  hands (executePlay card pid s) = hset (hands s) pid newHand.
Proof. by play_cases. Qed.

Lemma executePlay_isDealing : isDealing (executePlay card pid s) = isDealing s.
Proof. by play_cases. Qed.

Lemma executePlay_winner :
  winner (executePlay card pid s)
  = if length newHand =? 0 then Some pid else winner s.
Proof. by play_cases. Qed.

Lemma executePlay_gameLog : logged (gameLog s) (gameLog (executePlay card pid s)).
Proof. play_cases; auto. Qed.

Lemma executePlay_attackStack :
  attackStack (executePlay card pid s)
  = if (length newHand =? 0) || negb (bool_decide (card_rank card = R2))
    then attackStack s else (attackStack s + 2)%Z.
Proof.
  unfold executePlay, advanceTurn.
  destruct (length _ =? 0); simpl; [done|].
  repeat case_bool_decide; simpl; congruence.
Qed.

Lemma executePlay_isSuitSelectionOpen :
  isSuitSelectionOpen (executePlay card pid s) = true ->
  isSuitSelectionOpen s = true
  \/ (pid = south /\ currentTurn (executePlay card pid s) = currentTurn s
      /\ winner (executePlay card pid s) = winner s).
Proof. play_cases; auto. Qed.

(** The card leaves the hand it is in and lands on the discard pile. *)
Lemma executePlay_allCards :
  NoDup (card_id <$> hget (hands s) pid) -> card ∈ hget (hands s) pid ->
  allCards (executePlay card pid s) ≡ₚ allCards s.
Proof.
  intros Hnd Hin. unfold allCards.
  rewrite executePlay_deck, executePlay_discardPile, executePlay_hands.
  apply Permutation_app_head.
  rewrite (handCards_take (hands s) pid newHand [card])
    by by apply filter_id_remove.
  rewrite <- !app_assoc. apply Permutation_app_head, (comm (++)).
Qed.
End Play.

(** ** What a draw changes *)

Section Draw.
Variables (rnd : nat -> nat) (pid : PlayerID) (count : Z) (s : GameState).

Local Abbreviation st :=
  (drawLoop rnd (Z.to_nat count)
     (mkLoop (deck s) (discardPile s) [] false (gameLog s))).

(** The state [performDraw] commits, field by field. *)
Lemma performDraw_unfold :
  performDraw rnd pid count s
  = mkState (currentD st)
      (if didReshuffle st then currentDP st else discardPile s)
      (hset (hands s) pid (hget (hands s) pid ++ drawnCards st))
      (getNextPlayer pid false) (activeSuit s) (winner s)
      (isSuitSelectionOpen s)
      (addLog (if (0 <? attackStack s)%Z
               then getPlayerName pid +:+ " drew " +:+ pretty (length (drawnCards st))
                    +:+ " cards (Attack Penalty)."
               else getPlayerName pid +:+ " drew a card.") (loopLog st))
      (isDealing s)
      (if (0 <? attackStack s)%Z then 0%Z else attackStack s).
Proof.
  unfold performDraw, advanceTurn.
  destruct (didReshuffle _), (0 <? attackStack s)%Z; reflexivity.
Qed.

Lemma performDraw_discardPile :
  discardPile (performDraw rnd pid count s) = currentDP st.
Proof.
  rewrite performDraw_unfold. simpl.
  destruct (didReshuffle st) eqn:E; [done|].
  symmetry. by apply (drawLoop_sound rnd (Z.to_nat count)
    (mkLoop (deck s) (discardPile s) [] false (gameLog s))).
Qed.

Lemma performDraw_allCards : allCards (performDraw rnd pid count s) ≡ₚ allCards s.
Proof.
  unfold allCards. rewrite performDraw_discardPile.
  rewrite performDraw_unfold. simpl.
  rewrite handCards_give.
  destruct (drawLoop_sound rnd (Z.to_nat count)
    (mkLoop (deck s) (discardPile s) [] false (gameLog s))) as (Hp & _).
  simpl in Hp.
  rewrite (Permutation_app_swap_app (deck s)), <- Hp, <- app_assoc.
  apply Permutation_app_swap_app.
Qed.

Lemma performDraw_discard_nonempty :
  discardPile s ≠ [] -> discardPile (performDraw rnd pid count s) ≠ [].
Proof.
  rewrite performDraw_discardPile.
  apply (drawLoop_sound rnd (Z.to_nat count)
    (mkLoop (deck s) (discardPile s) [] false (gameLog s))).
Qed.

Lemma performDraw_gameLog : logged (gameLog s) (gameLog (performDraw rnd pid count s)).
Proof.
  rewrite performDraw_unfold. simpl. apply logged_addLog.
  apply (drawLoop_sound rnd (Z.to_nat count)
    (mkLoop (deck s) (discardPile s) [] false (gameLog s))).
Qed.

Lemma performDraw_hand_nonempty p :
  hget (hands (performDraw rnd pid count s)) p = [] -> hget (hands s) p = [].
Proof.
  rewrite performDraw_unfold. simpl.
  destruct (decide (pid = p)) as [->|Hne].
  - rewrite hget_hset. by intros [? _]%app_eq_nil.
  - by rewrite hget_hset_ne.
Qed.
End Draw.

(** ** The decision policy picks from the hand *)

Lemma validMovesOf_spec hand top su atk c :
  c ∈ validMovesOf hand top su atk <-> c ∈ hand /\ isValidMove c (Some top) su atk = true.
Proof. unfold validMovesOf. rewrite list_elem_of_filter. tauto. Qed.

Lemma find_elem_of {A} (f : A -> bool) (l : list A) x :
  List.find f l = Some x -> x ∈ l /\ f x = true.
Proof. intros [Hin Hf]%find_some. split; [by apply list_elem_of_In|done]. Qed.

Lemma head_elem_of {A} (l : list A) x : head l = Some x -> x ∈ l.
Proof. destruct l; intros; simplify_eq/=. apply list_elem_of_here. Qed.

Lemma orElse_Some {A} (x y : option A) z :
  orElse x y = Some z -> x = Some z \/ (x = None /\ y = Some z).
Proof. destruct x; simpl; auto. Qed.

Lemma aiChoice_valid hand top su atk c :
  aiChoice hand top su atk = Some c -> c ∈ validMovesOf hand top su atk.
Proof.
  unfold aiChoice.
  set (vm := validMovesOf hand top su atk).
  set (nj := filter (fun c => card_rank c ≠ RJ) vm).
  assert (Hnj : forall x, x ∈ nj -> x ∈ vm).
  { intros x Hx. by apply list_elem_of_filter in Hx as [_ Hx]. }
  destruct (0 <? length vm); [|done].
  intros [H|[_ H]]%orElse_Some; [|by apply head_elem_of].
  destruct (0 <? atk)%Z; [by apply head_elem_of|].
  destruct (0 <? length nj); [|by apply head_elem_of].
  apply Hnj.
  apply orElse_Some in H as [H|[_ H]]; [|by apply head_elem_of].
  apply orElse_Some in H as [H|[_ H]]; by apply find_elem_of in H as [? _].
Qed.

Lemma aiChoice_elem_of hand top su atk c :
  aiChoice hand top su atk = Some c -> c ∈ hand.
Proof. intros H%aiChoice_valid. by apply validMovesOf_spec in H as [? _]. Qed.

(** ** The invariant of a game *)

Lemma createDeck_NoDup : NoDup (card_id <$> createDeck).
Proof. apply (bool_decide_unpack _). by vm_compute. Qed.

Lemma createDeck_length : length createDeck = 52.
Proof. reflexivity. Qed.

Lemma Inv_NoDup s : Inv s -> NoDup (card_id <$> allCards s).
Proof. intros [Hp _ _ _ _ _ _]. rewrite Hp. apply createDeck_NoDup. Qed.

Lemma Inv_hand_NoDup s pid : Inv s -> NoDup (card_id <$> hget (hands s) pid).
Proof.
  intros Hnd%Inv_NoDup. unfold allCards in Hnd.
  rewrite (handCards_hget _ pid), !fmap_app in Hnd.
  apply NoDup_app in Hnd as (_ & _ & Hnd).
  apply NoDup_app in Hnd as (Hnd & _ & _).
  by apply NoDup_app in Hnd as (Hnd & _ & _).
Qed.

Lemma logged_length log log' : logged log log' -> length log <= 50 -> length log' <= 50.
Proof. intros [msgs ->]. apply addLogs_length. Qed.

Lemma length_eqb_0 {A} (l : list A) : (length l =? 0) = bool_decide (l = []).
Proof. by destruct l. Qed.

Lemma executePlay_Inv card pid s :
  Inv s -> card ∈ hget (hands s) pid -> winner s = None ->
  isSuitSelectionOpen s = false -> currentTurn s = pid ->
  Inv (executePlay card pid s).
Proof.
  intros HI Hin Hw Hs Ht. pose proof (Inv_hand_NoDup s pid HI) as Hnd.
  destruct HI as [HP HD HG HS HW HA HL]. split.
  - by rewrite executePlay_allCards.
  - rewrite executePlay_discardPile. by intros [_ ?]%app_eq_nil.
  - by rewrite executePlay_isDealing.
  - intros [H|(-> & Hc & Hw')]%executePlay_isSuitSelectionOpen; [congruence|].
    rewrite Hc, Hw'. auto.
  - intros p. rewrite executePlay_hands, executePlay_winner, length_eqb_0.
    destruct (decide (pid = p)) as [->|Hne].
    + rewrite hget_hset. intros ->. by rewrite bool_decide_eq_true_2.
    + rewrite hget_hset_ne by done. intros H%HW. congruence.
  - rewrite executePlay_attackStack. destruct HA as [k Hk].
    destruct (_ || _); [by exists k|]. exists (S k). lia.
  - eapply logged_length; [apply executePlay_gameLog|done].
Qed.

Lemma performDraw_Inv rnd pid count s :
  Inv s -> isSuitSelectionOpen s = false -> Inv (performDraw rnd pid count s).
Proof.
  intros [HP HD HG HS HW HA HL] Hs. split.
  - by rewrite performDraw_allCards.
  - by apply performDraw_discard_nonempty.
  - by rewrite performDraw_unfold.
  - rewrite performDraw_unfold. simpl. congruence.
  - intros p H%performDraw_hand_nonempty. rewrite performDraw_unfold. simpl. auto.
  - rewrite performDraw_unfold. simpl.
    destruct (0 <? attackStack s)%Z; [by exists 0|done].
  - eapply logged_length; [apply performDraw_gameLog|done].
Qed.

Lemma handleSuitSelect_Inv suit s :
  Inv s -> isSuitSelectionOpen s = true -> Inv (handleSuitSelect suit s).
Proof.
  intros [HP HD HG HS HW HA HL] Hs.
  unfold handleSuitSelect, advanceTurn. simpl. split; simpl; try done.
  by apply addLog_length.
Qed.

Lemma humanBlocked_false s :
  humanBlocked s = false ->
  currentTurn s = south /\ winner s = None /\ isSuitSelectionOpen s = false.
Proof.
  unfold humanBlocked. intros H.
  apply orb_false_iff in H as [H Hs]. apply orb_false_iff in H as [Ht Hw].
  apply negb_false_iff, bool_decide_eq_true in Ht.
  apply bool_decide_eq_false in Hw.
  repeat split; [done| |done]. by destruct (winner s); [destruct Hw|].
Qed.

Lemma handle_Inv op s : Inv s -> Inv (handle op s).
Proof.
  intros HI. destruct op as [i|rnd|suit|rnd]; simpl.
  - destruct (h_south (hands s) !! i) as [c|] eqn:Hc; [|done].
    unfold handleCardClick.
    destruct (humanBlocked s) eqn:Hb; [done|].
    apply humanBlocked_false in Hb as (Ht & Hw & Hs).
    destruct (isValidMove _ _ _ _); [|done].
    apply executePlay_Inv; try done.
    by apply list_elem_of_lookup_2 in Hc.
  - unfold handleDeckClick.
    destruct (humanBlocked s) eqn:Hb; [done|].
    apply humanBlocked_false in Hb as (Ht & Hw & Hs).
    by apply performDraw_Inv.
  - destruct (isSuitSelectionOpen s) eqn:Hs; [|done].
    by apply handleSuitSelect_Inv.
  - unfold performAITurn.
    destruct (_ || _) eqn:Hg; [done|].
    apply orb_false_iff in Hg as [Hg _]. apply orb_false_iff in Hg as [Ht Hw].
    apply bool_decide_eq_false in Ht, Hw.
    assert (Hw' : winner s = None) by (by destruct (winner s); [destruct Hw|]).
    assert (Hs : isSuitSelectionOpen s = false).
    { destruct (isSuitSelectionOpen s) eqn:E; [|done].
      by apply (inv_suit s HI) in E as [? _]. }
    destruct (last (discardPile s)) as [top|]; [|done].
    destruct (aiChoice _ _ _ _) as [c|] eqn:Hc.
    + apply executePlay_Inv; try done. by apply aiChoice_elem_of in Hc.
    + by apply performDraw_Inv.
Qed.

(** In a state of a game the winner effect has nothing left to do. *)
Lemma winnerEffect_Inv s : Inv s -> winnerEffect s = s.
Proof.
  intros [HP HD HG HS HW HA HL]. unfold winnerEffect. rewrite HG. cbn [foldl].
  assert (Hset : forall p,
    (if (length (hget (hands s) p) =? 0) && (0 <? length (discardPile s))
     then setWinner (Some p) s else s) = s).
  { intros p. rewrite length_eqb_0. case_bool_decide as Hp; [|done].
    destruct (0 <? _); [|done]. simpl.
    apply HW in Hp. unfold setWinner. rewrite <- Hp. by destruct s. }
  by rewrite !Hset.
Qed.

Lemma step_handle op s : Inv s -> step op s = handle op s.
Proof. intros HI. apply winnerEffect_Inv. by apply handle_Inv. Qed.

Lemma step_Inv op s : Inv s -> Inv (step op s).
Proof. intros HI. rewrite step_handle by done. by apply handle_Inv. Qed.

(** ** The deal *)

Lemma dealTick_pop i s d c :
  deck s = d ++ [c] ->
  dealTick i s
  = setDeck d (setHands (hset (hands s) (targetPlayer i)
                              (hget (hands s) (targetPlayer i) ++ [c])) s).
Proof.
  intros H. unfold dealTick. by rewrite H, last_snoc, removelast_last.
Qed.

(** What one tick does when the deck still has a card. *)
Lemma dealTick_sound i s :
  deck s ≠ [] ->
  let s' := dealTick i s in
  allCards s' ≡ₚ allCards s
  /\ length (deck s') = length (deck s) - 1
  /\ (forall p, length (hget (hands s') p)
                = length (hget (hands s) p) + (if decide (p = targetPlayer i) then 1 else 0))
  /\ discardPile s' = discardPile s /\ isSuitSelectionOpen s' = isSuitSelectionOpen s
  /\ gameLog s' = gameLog s /\ winner s' = winner s.
Proof.
  intros Hne. destruct (deck_cases (deck s)) as [?|(d & c & Hd)]; [done|].
  simpl. rewrite (dealTick_pop i s d c Hd).
  split; [|split; [|split]]; simpl; [| |intros p|done].
  - unfold allCards. simpl. rewrite Hd, handCards_give, <- !app_assoc.
    apply Permutation_app_head, Permutation_app_swap_app.
  - rewrite Hd, length_app. simpl. lia.
  - case_decide as Hp.
    + subst p. rewrite hget_hset, length_app. simpl. lia.
    + rewrite hget_hset_ne by done. lia.
Qed.

Lemma dealTicks_sound n i s :
  n <= length (deck s) ->
  let s' := dealTicks n i s in
  allCards s' ≡ₚ allCards s
  /\ length (deck s') = length (deck s) - n
  /\ (forall p, length (hget (hands s) p) <= length (hget (hands s') p))
  /\ discardPile s' = discardPile s /\ isSuitSelectionOpen s' = isSuitSelectionOpen s
  /\ gameLog s' = gameLog s /\ winner s' = winner s.
Proof.
  revert i s; induction n as [|n IH]; intros i s Hn; simpl.
  { repeat split; auto. lia. }
  assert (Hne : deck s ≠ []) by (intros E; rewrite E in Hn; simpl in Hn; lia).
  destruct (dealTick_sound i s Hne) as (Hp & Hl & Hh & Hd & Hs & Hg & Hw).
  destruct (IH (S i) (dealTick i s)) as (IHp & IHl & IHh & IHd & IHs & IHg & IHw); [lia|].
  split; [|split; [|split]].
  - by rewrite IHp.
  - lia.
  - intros p. specialize (IHh p). specialize (Hh p). lia.
  - repeat split; congruence.
Qed.

(** The first round of the deal gives every player a card. *)
Lemma dealTicks_first_round s p :
  4 <= length (deck s) -> hget (hands (dealTicks 4 0 s)) p ≠ [].
Proof.
  intros Hn. simpl.
  assert (Hne : forall t, 1 <= length (deck t) -> deck t ≠ []).
  { intros t Ht E. rewrite E in Ht. simpl in Ht. lia. }
  destruct (dealTick_sound 0 s) as (_ & Hl0 & Hh0 & _); [apply Hne; lia|].
  destruct (dealTick_sound 1 (dealTick 0 s)) as (_ & Hl1 & Hh1 & _); [apply Hne; lia|].
  destruct (dealTick_sound 2 (dealTick 1 (dealTick 0 s))) as (_ & Hl2 & Hh2 & _);
    [apply Hne; lia|].
  destruct (dealTick_sound 3 (dealTick 2 (dealTick 1 (dealTick 0 s)))) as (_ & _ & Hh3 & _);
    [apply Hne; lia|].
  specialize (Hh0 p). specialize (Hh1 p). specialize (Hh2 p). specialize (Hh3 p).
  intros E. rewrite E in Hh3. simpl in Hh3.
  destruct p; unfold targetPlayer in *; simpl in *; lia.
Qed.

Lemma finishDealing_sound s c d :
  deck s = d ++ [c] ->
  finishDealing s
  = mkState d [c] (hands s) south (card_suit c) (winner s) (isSuitSelectionOpen s)
      (addLog (if bool_decide (card_rank c = R2)
               then "Game starts with a 2! First player must play 2 or draw 2."
               else "Game Started. Top card: " +:+ rank_str (card_rank c)
                    +:+ " of " +:+ suit_str (card_suit c)) (gameLog s))
      false (if bool_decide (card_rank c = R2) then 2%Z else 0%Z).
Proof.
  intros H. unfold finishDealing. rewrite H, last_snoc, removelast_last.
  by case_bool_decide.
Qed.

Lemma dealTicks_add n m i s :
  dealTicks (n + m) i s = dealTicks m (n + i) (dealTicks n i s).
Proof.
  revert i s; induction n as [|n IH]; intros i s; [done|].
  cbn [Nat.add dealTicks]. rewrite IH. by rewrite Nat.add_succ_r.
Qed.

Lemma dealTicks_all_hands s p :
  32 <= length (deck s) -> hget (hands (dealTicks (4 + 28) 0 s)) p ≠ [].
Proof.
  intros Hn Hp0. rewrite dealTicks_add in Hp0.
  destruct (dealTicks_sound 4 0 s) as (_ & Hl4 & _); [lia|].
  pose proof (dealTicks_first_round s p) as H4.
  set (s4 := dealTicks 4 0 s) in *. clearbody s4.
  destruct (dealTicks_sound 28 (4 + 0) s4) as (_ & _ & Hm & _); [lia|].
  specialize (Hm p). rewrite Hp0 in Hm.
  apply H4; [lia|].
  destruct (hget (hands s4) p); [done|]. cbn [length] in Hm. lia.
Qed.

(** The state at the end of the deal. *)
Lemma startDeal_shape rnd s0 :
  exists h d c,
    startDeal rnd s0
    = mkState d [c] h south (card_suit c) None (isSuitSelectionOpen s0)
        (addLog (if bool_decide (card_rank c = R2)
                 then "Game starts with a 2! First player must play 2 or draw 2."
                 else "Game Started. Top card: " +:+ rank_str (card_rank c)
                      +:+ " of " +:+ suit_str (card_suit c)) [])
        false (if bool_decide (card_rank c = R2) then 2%Z else 0%Z)
    /\ d ++ handCards h ++ [c] ≡ₚ createDeck
    /\ forall p, hget h p ≠ [].
Proof.
  unfold startDeal.
  set (s := setDiscardPile [] _).
  assert (Hdeck : deck s = shuffleDeck rnd createDeck) by reflexivity.
  assert (Hdisc : discardPile s = []) by reflexivity.
  assert (Hhands : hands s = mkHands [] [] [] []) by reflexivity.
  assert (Hlog : gameLog s = []) by reflexivity.
  assert (Hwin : winner s = None) by reflexivity.
  assert (Hsel : isSuitSelectionOpen s = isSuitSelectionOpen s0) by reflexivity.
  clearbody s.
  assert (Hlen : length (deck s) = 52).
  { by rewrite Hdeck, shuffleDeck_length. }
  change (HAND_SIZE * 4) with (4 + 28).
  destruct (dealTicks_sound (4 + 28) 0 s) as (Hp & Hl & _ & Hd & Hs & Hg & Hw); [lia|].
  pose proof (dealTicks_all_hands s) as Hh.
  set (s1 := dealTicks (4 + 28) 0 s) in *. clearbody s1.
  destruct (deck_cases (deck s1)) as [E|(d & c & E)].
  { rewrite E in Hl. simpl in Hl. lia. }
  exists (hands s1), d, c.
  rewrite (finishDealing_sound s1 c d E), Hw, Hwin, Hs, Hsel, Hg, Hlog.
  split; [done|]. split; [|intros p; apply Hh; lia].
  transitivity (allCards s1).
  - unfold allCards. rewrite E, Hd, Hdisc.
    rewrite app_nil_r, <- !app_assoc. apply Permutation_app_head, (comm (++)).
  - rewrite Hp. unfold allCards. rewrite Hdeck, Hdisc, Hhands.
    unfold handCards. cbn [h_south h_west h_north h_east app].
    rewrite app_nil_r. apply shuffleDeck_Permutation.
Qed.

Lemma startDeal_Inv rnd s0 : Inv (startDeal rnd s0).
Proof.
  destruct (startDeal_shape rnd s0) as (h & d & c & -> & Hp & Hh).
  split; cbn [allCards deck discardPile hands currentTurn winner isSuitSelectionOpen
              gameLog isDealing attackStack]; try done.
  - intros p Hp0. by apply Hh in Hp0.
  - case_bool_decide; [by exists 1|by exists 0].
  - apply addLog_length. simpl. lia.
Qed.

Lemma reachable_Inv s : reachable s -> Inv s.
Proof.
  induction 1 as [rnd s0|op s _ IH]; [apply startDeal_Inv|by apply step_Inv].
Qed.

Lemma reachable_run ops s : reachable s -> reachable (run ops s).
Proof.
  revert s; induction ops as [|op ops IH]; intros s H; [done|].
  apply IH. by constructor.
Qed.

Lemma reachable_passive n s : reachable s -> reachable (passive n s).
Proof.
  revert s; induction n as [|n IH]; intros s H; [done|].
  apply IH. by constructor.
Qed.

(** ** After the win *)

Lemma winner_blocks_human s : winner s ≠ None -> humanBlocked s = true.
Proof.
  intros H. unfold humanBlocked.
  rewrite (bool_decide_eq_true_2 (winner s ≠ None)) by done.
  by rewrite orb_true_r.
Qed.

Lemma handle_terminal op s : Inv s -> winner s ≠ None -> handle op s = s.
Proof.
  intros HI Hw. destruct op as [i|rnd|suit|rnd]; simpl.
  - destruct (_ !! i); [|done]. unfold handleCardClick.
    by rewrite winner_blocks_human.
  - unfold handleDeckClick. by rewrite winner_blocks_human.
  - destruct (isSuitSelectionOpen s) eqn:Hs; [|done].
    by apply (inv_suit s HI) in Hs as [_ ?].
  - unfold performAITurn.
    rewrite (bool_decide_eq_true_2 (winner s ≠ None)) by done.
    by rewrite orb_true_r.
Qed.

Lemma step_terminal op s : Inv s -> winner s ≠ None -> step op s = s.
Proof.
  intros HI Hw. unfold step. rewrite handle_terminal by done.
  by apply winnerEffect_Inv.
Qed.

Lemma run_terminal ops s : Inv s -> winner s ≠ None -> run ops s = s.
Proof.
  intros HI Hw. induction ops as [|op ops IH]; [done|].
  unfold run in *. simpl. by rewrite step_terminal.
Qed.

(** ** The log of an operation *)

Lemma winnerEffect_gameLog s : gameLog (winnerEffect s) = gameLog s.
Proof.
  unfold winnerEffect. destruct (isDealing s); [done|].
  cbn [foldl]. by repeat (destruct (_ && _); cbn [setWinner gameLog]).
Qed.

Lemma handle_gameLog op s : logged (gameLog s) (gameLog (handle op s)).
Proof.
  destruct op as [i|rnd|suit|rnd]; simpl.
  - destruct (_ !! i); [|done]. unfold handleCardClick.
    destruct (humanBlocked s); [done|].
    destruct (isValidMove _ _ _ _); [apply executePlay_gameLog|done].
  - unfold handleDeckClick. destruct (humanBlocked s); [done|].
    apply performDraw_gameLog.
  - destruct (isSuitSelectionOpen s); [|done].
    unfold handleSuitSelect, advanceTurn. simpl. auto.
  - unfold performAITurn. destruct (_ || _); [done|].
    destruct (last _); [|done].
    destruct (aiChoice _ _ _ _); [apply executePlay_gameLog|apply performDraw_gameLog].
Qed.

Lemma step_gameLog op s : logged (gameLog s) (gameLog (step op s)).
Proof. unfold step. rewrite winnerEffect_gameLog. apply handle_gameLog. Qed.

(** ** The decision policy, case by case *)

Lemma isValidMove_attack c top su atk :
  (0 < atk)%Z -> isValidMove c (Some top) su atk = true -> card_rank c = R2.
Proof.
  intros Ha. unfold isValidMove.
  rewrite (proj2 (Z.ltb_lt 0 atk)) by done. apply bool_decide_eq_true.
Qed.

Lemma isValidMove_calm c top su atk :
  ¬ (0 < atk)%Z -> isValidMove c (Some top) su atk = true ->
  card_rank c = RJ \/ card_suit c = su \/ card_rank c = card_rank top.
Proof.
  intros Ha. unfold isValidMove.
  rewrite (proj2 (Z.ltb_ge 0 atk)) by lia.
  repeat case_bool_decide; auto. done.
Qed.

Lemma head_is_Some {A} (l : list A) : l ≠ [] -> exists x, head l = Some x.
Proof. destruct l; [done|eauto]. Qed.

Lemma length_pos_ltb {A} (l : list A) : l ≠ [] -> (0 <? length l) = true.
Proof. by destruct l. Qed.

(** What [aiChoice] returns on a hand with a legal move. *)
Lemma aiChoice_cases hand top su atk :
  validMovesOf hand top su atk ≠ [] ->
  exists c,
    aiChoice hand top su atk = Some c /\
    c ∈ validMovesOf hand top su atk /\
    if decide (0 < atk)%Z then
      head (validMovesOf hand top su atk) = Some c /\ card_rank c = R2
    else
      match filter (fun c => card_rank c ≠ RJ) (validMovesOf hand top su atk) with
      | [] => head (validMovesOf hand top su atk) = Some c /\ card_rank c = RJ
      | nonJacks =>
        card_rank c ≠ RJ /\
        match List.find (fun c => bool_decide (card_suit c = su)) nonJacks with
        | Some x => c = x
        | None =>
          List.find (fun c => bool_decide (card_rank c = card_rank top)) nonJacks = Some c
        end
      end.
Proof.
  intros Hne.
  assert (Hc : exists c, aiChoice hand top su atk = Some c).
  { unfold aiChoice. rewrite length_pos_ltb by done.
    destruct (head_is_Some _ Hne) as [x ->].
    match goal with |- context [orElse ?o _] => destruct o end; simpl; eauto. }
  destruct Hc as [c Hc]. exists c. split; [done|].
  pose proof (aiChoice_valid _ _ _ _ _ Hc) as Hin. split; [done|].
  revert Hc. unfold aiChoice. rewrite length_pos_ltb by done.
  set (vm := validMovesOf hand top su atk) in *.
  destruct (head_is_Some _ Hne) as [x Hx]. rewrite Hx.
  case_decide as Ha.
  - rewrite (proj2 (Z.ltb_lt 0 atk)) by done. simpl. intros [= ->].
    split; [done|].
    apply validMovesOf_spec in Hin as [_ Hv]. by apply isValidMove_attack in Hv.
  - rewrite (proj2 (Z.ltb_ge 0 atk)) by lia.
    destruct (filter _ vm) as [|y nj] eqn:Hnj.
    + simpl. intros [= ->]. split; [done|].
      destruct (decide (card_rank c = RJ)) as [|Hr]; [done|].
      assert (c ∈ filter (fun c => card_rank c ≠ RJ) vm) as Hf
        by by apply list_elem_of_filter.
      rewrite Hnj in Hf. by apply elem_of_nil in Hf.
    + rewrite length_pos_ltb by done.
      assert (Hall : forall z, z ∈ y :: nj -> card_rank z ≠ RJ /\ z ∈ vm).
      { intros z Hz. rewrite <- Hnj in Hz. by apply list_elem_of_filter in Hz. }
      destruct (List.find (fun c => bool_decide (card_suit c = su)) (y :: nj))
        as [z|] eqn:Hf1.
      * cbn [orElse]. intros [= ->]. split; [|done].
        apply find_elem_of in Hf1 as [Hz _]. by apply Hall in Hz as [? _].
      * destruct (List.find (fun c => bool_decide (card_rank c = card_rank top)) (y :: nj))
          as [z|] eqn:Hf2.
        -- cbn [orElse]. intros [= ->]. split; [|done].
           apply find_elem_of in Hf2 as [Hz _]. by apply Hall in Hz as [? _].
        -- exfalso.
           destruct (Hall y) as [Hy Hyv]; [apply list_elem_of_here|].
           apply validMovesOf_spec in Hyv as [_ Hyv].
           pose proof (find_none _ _ Hf1 y (in_eq _ _)) as H1.
           pose proof (find_none _ _ Hf2 y (in_eq _ _)) as H2.
           apply bool_decide_eq_false in H1, H2.
           by apply isValidMove_calm in Hyv as [?|[?|?]].
Qed.

(** * The claims *)

(** C1. [isValidMove] is the legality rule of the specification: with no
    top card nothing is legal; under attack exactly the 2s are; otherwise a
    Jack always is, and any other card exactly when it has the active suit
    or the rank of the top card. *)
Theorem isValidMove_legalMove card topCard activeSuit attackStack :
  isValidMove card topCard activeSuit attackStack = true
  <-> legalMove card topCard activeSuit attackStack.
Proof.
  unfold isValidMove, legalMove.
  destruct topCard as [top|]; [|done].
  case_decide as Ha.
  - rewrite (proj2 (Z.ltb_lt 0 attackStack)) by lia.
    apply bool_decide_eq_true.
  - rewrite (proj2 (Z.ltb_ge 0 attackStack)) by lia.
    repeat case_bool_decide; intuition congruence.
Qed.

(** C2. The code does not keep the 52 cards when a play lands twice. In
    the game [game0], after the draw of the human, West is to move and its
    turn decides to play the Jack of diamonds. Run once, that turn is the
    operation of the game. When a second turn of the same render is in
    flight (the effect runs again when the tutorial is closed during the
    wait of the first, and no run is cancelled), both call [executePlay] with
    the hand of that render: the Jack is put on the discard pile twice, and
    the table holds 53 cards, two of them with the id ["card-22"]. *)
Theorem stale_turn_duplicates_card :
  reachable westToMove
  /\ aiTurnPlay westToMove = Some (mkCard "card-22" diamonds RJ, west)
  /\ executePlayFrom westToMove (mkCard "card-22" diamonds RJ) west westToMove
     = step (AITurn oracle0) westToMove
  /\ discardPile playedTwice
     = discardPile westToMove
       ++ [mkCard "card-22" diamonds RJ; mkCard "card-22" diamonds RJ]
  /\ length (allCards playedTwice) = 53
  /\ ¬ NoDup (card_id <$> allCards playedTwice).
Proof.
  split; [apply reachable_passive, reach_deal|].
  split; [vm_compute; reflexivity|].
  split; [vm_compute; reflexivity|].
  split; [vm_compute; reflexivity|].
  split; [vm_compute; reflexivity|].
  apply (bool_decide_eq_false_1 (NoDup (card_id <$> allCards playedTwice))).
  vm_compute. reflexivity.
Qed.

(** C3. The code changes the state after the win when a play lands late. In
    the game [game0], after 51 operations, West holds the 2 of clubs alone
    and its turn decides to play it. The first run makes West the winner at
    once, with an empty hand. A second run of the same render (see C2) looks
    at the winner before its waits only: it calls [executePlay] again and
    puts the 2 of clubs on the discard pile a second time, in a state that
    has a winner. *)
Theorem stale_turn_plays_after_win :
  reachable westLastCard
  /\ aiTurnPlay westLastCard = Some (mkCard "card-26" clubs R2, west)
  /\ executePlayFrom westLastCard (mkCard "card-26" clubs R2) west westLastCard
     = step (AITurn oracle0) westLastCard
  /\ winner (step (AITurn oracle0) westLastCard) = Some west
  /\ hget (hands (step (AITurn oracle0) westLastCard)) west = []
  /\ playedAfterWin ≠ step (AITurn oracle0) westLastCard
  /\ discardPile playedAfterWin
     = discardPile (step (AITurn oracle0) westLastCard) ++ [mkCard "card-26" clubs R2].
Proof.
  split; [apply reachable_passive, reach_deal|].
  split; [vm_compute; reflexivity|].
  split; [vm_compute; reflexivity|].
  split; [vm_compute; reflexivity|].
  split; [vm_compute; reflexivity|].
  split; [|vm_compute; reflexivity].
  intros E. apply (f_equal (fun s => length (discardPile s))) in E.
  vm_compute in E. discriminate E.
Qed.

(** C4. With an empty deck and more than one card on the discard pile, a
    draw sets the top discard card aside, shuffles the rest into the new
    deck, takes the drawn card from the top of that deck and leaves the
    discard pile with the top card alone; [performDraw] for one card commits
    exactly that, and the active suit is untouched. *)
Theorem reshuffle_preserves_top rnd pid s :
  deck s = [] -> 1 < length (discardPile s) ->
  exists top rest c,
    discardPile s = rest ++ [top]
    /\ shuffleDeck rnd rest ≡ₚ rest
    /\ last (shuffleDeck rnd rest) = Some c
    /\ drawCardForPlayerLogic rnd (deck s) (discardPile s) (gameLog s)
       = (mkDraw (Some c) (removelast (shuffleDeck rnd rest)) [top] true,
          addLog "Deck reshuffled from discard pile." (gameLog s))
    /\ deck (performDraw rnd pid 1 s) = removelast (shuffleDeck rnd rest)
    /\ discardPile (performDraw rnd pid 1 s) = [top]
    /\ hget (hands (performDraw rnd pid 1 s)) pid = hget (hands s) pid ++ [c]
    /\ last (discardPile (performDraw rnd pid 1 s)) = last (discardPile s)
    /\ activeSuit (performDraw rnd pid 1 s) = activeSuit s.
Proof.
  intros Hd Hlen.
  destruct (discard_cases (discardPile s)) as [?|(rest & top & Hne & Hdp)]; [lia|].
  destruct (draw_reshuffle rnd rest top (gameLog s) Hne) as (c & Hc & Hdraw).
  exists top, rest, c.
  rewrite Hd, Hdp. repeat split; try done.
  - apply shuffleDeck_Permutation.
  - rewrite performDraw_unfold, Hd, Hdp. simpl. by rewrite Hdraw.
  - rewrite performDraw_unfold, Hd, Hdp. simpl. by rewrite Hdraw.
  - rewrite performDraw_unfold, Hd, Hdp. simpl. rewrite Hdraw. simpl.
    by rewrite hget_hset.
  - rewrite performDraw_unfold, Hd, Hdp. simpl. rewrite Hdraw. simpl.
    by rewrite last_snoc.
  - by rewrite performDraw_unfold.
Qed.

Lemma reshuffle_preserves_top_witness :
  exists top rest c,
    discardPile emptyDeckState = rest ++ [top]
    /\ shuffleDeck oracle0 rest ≡ₚ rest
    /\ last (shuffleDeck oracle0 rest) = Some c
    /\ drawCardForPlayerLogic oracle0 (deck emptyDeckState) (discardPile emptyDeckState)
         (gameLog emptyDeckState)
       = (mkDraw (Some c) (removelast (shuffleDeck oracle0 rest)) [top] true,
          addLog "Deck reshuffled from discard pile." (gameLog emptyDeckState))
    /\ deck (performDraw oracle0 north 1 emptyDeckState)
       = removelast (shuffleDeck oracle0 rest)
    /\ discardPile (performDraw oracle0 north 1 emptyDeckState) = [top]
    /\ hget (hands (performDraw oracle0 north 1 emptyDeckState)) north
       = hget (hands emptyDeckState) north ++ [c]
    /\ last (discardPile (performDraw oracle0 north 1 emptyDeckState))
       = last (discardPile emptyDeckState)
    /\ activeSuit (performDraw oracle0 north 1 emptyDeckState) = activeSuit emptyDeckState.
Proof.
  apply (reshuffle_preserves_top oracle0 north emptyDeckState).
  - vm_compute. reflexivity.
  - vm_compute. lia.
Defined.

(** C5. With an empty deck and at most one card on the discard pile, a draw
    returns no card and the two piles as they are; the loop of [performDraw]
    stops there whatever is left of its count, and [performDraw] commits the
    same deck, discard pile and hands. All of it is defined for every
    input. *)
Theorem exhausted_draw_inert rnd pid count s :
  deck s = [] -> length (discardPile s) <= 1 ->
  (forall log,
     drawCardForPlayerLogic rnd (deck s) (discardPile s) log
     = (mkDraw None (deck s) (discardPile s) false, log))
  /\ (forall n drawn r log,
        drawLoop rnd n (mkLoop (deck s) (discardPile s) drawn r log)
        = mkLoop (deck s) (discardPile s) drawn r log)
  /\ deck (performDraw rnd pid count s) = deck s
  /\ discardPile (performDraw rnd pid count s) = discardPile s
  /\ hands (performDraw rnd pid count s) = hands s.
Proof.
  intros Hd Hlen. rewrite Hd.
  assert (Hloop : forall n drawn r log,
    drawLoop rnd n (mkLoop [] (discardPile s) drawn r log)
    = mkLoop [] (discardPile s) drawn r log).
  { intros [|n] drawn r log; [done|]. simpl. by rewrite draw_exhausted. }
  split; [intros log; by apply draw_exhausted|]. split; [done|].
  rewrite performDraw_unfold, Hd, Hloop. simpl.
  by rewrite app_nil_r, hset_hget.
Qed.

Lemma exhausted_draw_inert_witness :
  (forall log,
     drawCardForPlayerLogic oracle0 (deck stuckState) (discardPile stuckState) log
     = (mkDraw None (deck stuckState) (discardPile stuckState) false, log))
  /\ (forall n drawn r log,
        drawLoop oracle0 n (mkLoop (deck stuckState) (discardPile stuckState) drawn r log)
        = mkLoop (deck stuckState) (discardPile stuckState) drawn r log)
  /\ deck (performDraw oracle0 west 4 stuckState) = deck stuckState
  /\ discardPile (performDraw oracle0 west 4 stuckState) = discardPile stuckState
  /\ hands (performDraw oracle0 west 4 stuckState) = hands stuckState.
Proof.
  apply (exhausted_draw_inert oracle0 west 4 stuckState).
  - reflexivity.
  - vm_compute. lia.
Defined.

(** C6. In a game, a player whose turn it is and whose hand is one Jack,
    with no attack pending, plays it (the human by clicking it, a non-human
    player by its policy) and is the winner at once: the suit selection does
    not open, and active suit and turn stay as they were. *)
Theorem last_jack_wins rnd s pid card :
  reachable s ->
  currentTurn s = pid -> winner s = None -> isSuitSelectionOpen s = false ->
  hget (hands s) pid = [card] -> card_rank card = RJ -> attackStack s = 0%Z ->
  let s' := step (if decide (pid = south) then CardClick 0 else AITurn rnd) s in
  winner s' = Some pid
  /\ isSuitSelectionOpen s' = false
  /\ hget (hands s') pid = []
  /\ discardPile s' = discardPile s ++ [card]
  /\ activeSuit s' = activeSuit s
  /\ currentTurn s' = currentTurn s.
Proof.
  intros HI%reachable_Inv Ht Hw Hs Hh Hr Ha.
  assert (Hplay : executePlay card pid s
                  = setWinner (Some pid)
                      (setDiscardPile (discardPile s ++ [card])
                         (setHands (hset (hands s) pid []) s))).
  { unfold executePlay. rewrite Hh.
    rewrite filter_cons_False by (intros H; by apply H). done. }
  destruct (last (discardPile s)) as [top|] eqn:Hl;
    [|by apply last_None_nil, (inv_discard s HI) in Hl].
  assert (Hv : isValidMove card (Some top) (activeSuit s) (attackStack s) = true).
  { unfold isValidMove. rewrite Ha, Hr. done. }
  assert (Hstep : step (if decide (pid = south) then CardClick 0 else AITurn rnd) s
                  = executePlay card pid s).
  { rewrite step_handle by done. case_decide as Hp; simpl.
    - subst pid. rewrite Hp in Hh. simpl in Hh. rewrite Hh. simpl.
      unfold handleCardClick, humanBlocked.
      rewrite Hp, Hw, Hs, Hl, Hv. done.
    - unfold performAITurn.
      rewrite Ht, Hw, (inv_dealing s HI), Hl, Hh.
      rewrite (bool_decide_eq_false_2 (pid = south)) by done. simpl.
      unfold aiChoice, validMovesOf.
      rewrite filter_cons_True by done. simpl.
      rewrite Ha. simpl.
      rewrite filter_cons_False by (intros H; by apply H). done. }
  simpl. rewrite Hstep, Hplay. simpl. by rewrite hget_hset, Hs.
Qed.

Lemma last_jack_wins_witness :
  exists card,
    hget (hands lastJackState) north = [card]
    /\ winner (step (AITurn oracle6) lastJackState) = Some north
    /\ isSuitSelectionOpen (step (AITurn oracle6) lastJackState) = false
    /\ hget (hands (step (AITurn oracle6) lastJackState)) north = []
    /\ discardPile (step (AITurn oracle6) lastJackState)
       = discardPile lastJackState ++ [card]
    /\ activeSuit (step (AITurn oracle6) lastJackState) = activeSuit lastJackState
    /\ currentTurn (step (AITurn oracle6) lastJackState) = currentTurn lastJackState.
Proof.
  eexists. split; [vm_compute; reflexivity|].
  apply (last_jack_wins oracle6 lastJackState north).
  - apply reachable_passive, reach_deal.
  - vm_compute. reflexivity.
  - vm_compute. reflexivity.
  - vm_compute. reflexivity.
  - vm_compute. reflexivity.
  - reflexivity.
  - vm_compute. reflexivity.
Defined.

(** C7, as stated, fails: in the game [game0] West holds the 2 of clubs
    alone after 51 operations, plays it on the 2 of hearts with no attack
    pending, and the attack stack stays 0: the play of a last card ends the
    game before [advanceTurn] runs. *)
Lemma last_two_adds_nothing :
  ¬ (forall s pid card,
       reachable s -> currentTurn s = pid -> card ∈ hget (hands s) pid ->
       isValidMove card (last (discardPile s)) (activeSuit s) (attackStack s) = true ->
       card_rank card = R2 ->
       attackStack (executePlay card pid s) = (attackStack s + 2)%Z).
Proof.
  intros H.
  specialize (H (passive 51 game0) west (mkCard "card-26" clubs R2)).
  assert (Hr : reachable (passive 51 game0)) by apply reachable_passive, reach_deal.
  specialize (H Hr). revert H. vm_compute. intros H.
  specialize (H eq_refl (list_elem_of_here _ _) eq_refl eq_refl). discriminate H.
Qed.

(** C7, amended. In every state of a game the attack stack is a
    non-negative even number. It is 0 or 2 after the deal; the play of a 2
    adds exactly 2 unless it was the last card of the hand, which leaves the
    stack as it is; a draw under attack resets it to 0. *)
Theorem attackStack_even s :
  reachable s ->
  (exists k : nat, attackStack s = (2 * Z.of_nat k)%Z)
  /\ (forall rnd s0,
        attackStack (startDeal rnd s0) = 0%Z \/ attackStack (startDeal rnd s0) = 2%Z)
  /\ (forall card pid,
        card_rank card = R2 ->
        attackStack (executePlay card pid s)
        = if bool_decide (filter (fun c => card_id c ≠ card_id card) (hget (hands s) pid) = [])
          then attackStack s else (attackStack s + 2)%Z)
  /\ (forall rnd pid count,
        (0 < attackStack s)%Z -> attackStack (performDraw rnd pid count s) = 0%Z).
Proof.
  intros HI%reachable_Inv. split; [apply HI|]. split; [|split].
  - intros rnd s0.
    destruct (startDeal_shape rnd s0) as (h & d & c & -> & _).
    cbn [attackStack]. case_bool_decide; auto.
  - intros card pid Hr.
    rewrite executePlay_attackStack, length_eqb_0, Hr.
    rewrite (bool_decide_eq_true_2 (R2 = R2)) by done. simpl.
    by rewrite orb_false_r.
  - intros rnd pid count Ha. rewrite performDraw_unfold. simpl.
    by rewrite (proj2 (Z.ltb_lt 0 (attackStack s))).
Qed.

Lemma attackStack_even_witness :
  (exists k : nat, attackStack endgame = (2 * Z.of_nat k)%Z)
  /\ (forall rnd s0,
        attackStack (startDeal rnd s0) = 0%Z \/ attackStack (startDeal rnd s0) = 2%Z)
  /\ (forall card pid,
        card_rank card = R2 ->
        attackStack (executePlay card pid endgame)
        = if bool_decide (filter (fun c => card_id c ≠ card_id card)
                                 (hget (hands endgame) pid) = [])
          then attackStack endgame else (attackStack endgame + 2)%Z)
  /\ (forall rnd pid count,
        (0 < attackStack endgame)%Z ->
        attackStack (performDraw rnd pid count endgame) = 0%Z).
Proof. apply (attackStack_even endgame), reachable_passive, reach_deal. Defined.

(** C8, as stated, fails: with hearts active on the 5 of hearts, a hand of
    the Jack of hearts and the 5 of spades has a legal move of the active
    suit, the Jack, which is what the policy worded in the specification
    picks; [aiChoice] plays the 5 of spades. *)
Lemma jack_of_active_suit_not_preferred :
  let hand := [mkCard "card-9" hearts RJ; mkCard "card-42" spades R5] in
  let top := mkCard "card-3" hearts R5 in
  mkCard "card-9" hearts RJ ∈ validMovesOf hand top hearts 0
  /\ specPolicy hand top hearts 0 = Some (mkCard "card-9" hearts RJ)
  /\ aiChoice hand top hearts 0 = Some (mkCard "card-42" spades R5)
  /\ aiChoice hand top hearts 0 ≠ specPolicy hand top hearts 0.
Proof.
  simpl. split; [|split; [|split]].
  - vm_compute. apply list_elem_of_here.
  - vm_compute. reflexivity.
  - vm_compute. reflexivity.
  - vm_compute. discriminate.
Qed.

(** C8, amended. On a hand with a legal move the policy returns a legal
    move: under attack the first one, a 2; otherwise, when some legal move is
    not a Jack, the first non-Jack legal move of the active suit, or failing
    that the first non-Jack legal move of the rank of the top card (one of
    the two exists); and when every legal move is a Jack, the first legal
    move. *)
Theorem aiChoice_priority hand top su atk :
  validMovesOf hand top su atk ≠ [] ->
  exists c,
    aiChoice hand top su atk = Some c
    /\ c ∈ validMovesOf hand top su atk
    /\ ((0 < atk)%Z -> head (validMovesOf hand top su atk) = Some c /\ card_rank c = R2)
    /\ ((atk <= 0)%Z ->
        forall nonJacks,
          nonJacks = filter (fun c => card_rank c ≠ RJ) (validMovesOf hand top su atk) ->
          (nonJacks = [] ->
           head (validMovesOf hand top su atk) = Some c /\ card_rank c = RJ)
          /\ (nonJacks ≠ [] ->
              c ∈ nonJacks
              /\ ((exists x, x ∈ nonJacks /\ card_suit x = su) ->
                  card_suit c = su
                  /\ List.find (fun c => bool_decide (card_suit c = su)) nonJacks = Some c)
              /\ ((forall x, x ∈ nonJacks -> card_suit x ≠ su) ->
                  card_rank c = card_rank top
                  /\ List.find (fun c => bool_decide (card_rank c = card_rank top)) nonJacks
                     = Some c))).
Proof.
  intros Hne.
  destruct (aiChoice_cases hand top su atk Hne) as (c & Hc & Hin & Hcase).
  exists c. split; [done|]. split; [done|].
  case_decide as Ha; (split; [intros Ha'|intros Ha' nonJacks ->]); try lia; [done|].
  destruct (filter _ _) as [|y nj]; (split; [intros Hnj|intros Hnj]); try done.
  destruct Hcase as [Hr Hfind].
  destruct (List.find (fun c => bool_decide (card_suit c = su)) (y :: nj))
    as [x|] eqn:Hf1.
  - subst x. pose proof (find_elem_of _ _ _ Hf1) as [Hcin Hs].
    apply bool_decide_eq_true in Hs.
    split; [done|]. split; [done|].
    intros Hall. by apply Hall in Hcin.
  - pose proof (find_elem_of _ _ _ Hfind) as [Hcin Hrk].
    apply bool_decide_eq_true in Hrk.
    split; [done|]. split; [|done].
    intros (x & Hx & Hxs). apply list_elem_of_In in Hx.
    pose proof (find_none _ _ Hf1 x Hx) as Hfalse. simpl in Hfalse.
    by apply bool_decide_eq_false in Hfalse.
Qed.

Lemma aiChoice_priority_witness :
  exists c,
    aiChoice [mkCard "card-9" hearts RJ; mkCard "card-42" spades R5]
             (mkCard "card-3" hearts R5) hearts 0 = Some c
    /\ c = mkCard "card-42" spades R5.
Proof.
  destruct (aiChoice_priority
              [mkCard "card-9" hearts RJ; mkCard "card-42" spades R5]
              (mkCard "card-3" hearts R5) hearts 0) as (c & Hc & _ & _ & Hf).
  - vm_compute. discriminate.
  - exists c. split; [exact Hc|].
    vm_compute in Hc. congruence.
Defined.

(** C9, as stated, fails: in the game [game0] the log holds 50 entries
    after 49 operations, and the turn of East that follows drops the first
    of them, so that every entry moves one position up. *)
Lemma log_drops_oldest_entry :
  ¬ (forall s op i entry,
       reachable s -> gameLog s !! i = Some entry ->
       gameLog (step op s) !! i = Some entry).
Proof.
  intros H.
  specialize (H (passive 49 game0) (AITurn oracle0) 0 "North AI played K of clubs."
                (reachable_passive 49 game0 (reach_deal _ _))).
  revert H. vm_compute. intros H. specialize (H eq_refl). discriminate H.
Qed.

Lemma drawLoop_log rnd n st :
  (length (currentDP st) <= 1 -> loopLog (drawLoop rnd n st) = loopLog st)
  /\ exists msgs, length msgs <= 1 /\ loopLog (drawLoop rnd n st) = addLogs msgs (loopLog st).
Proof.
  revert st; induction n as [|n IH]; intros st; cbn [drawLoop].
  { split; [done|]. exists []. split; [simpl; lia|done]. }
  destruct (deck_cases (currentD st)) as [Hd|(d' & c & Hd)]; rewrite Hd.
  - destruct (discard_cases (currentDP st)) as [Hs|(rest & top & Hne & Hdp)].
    + rewrite draw_exhausted by done. simpl. split; [done|].
      exists []. split; [simpl; lia|done].
    + rewrite Hdp.
      destruct (draw_reshuffle rnd rest top (loopLog st) Hne) as (c & Hc & Heq).
      rewrite Heq. cbn -[drawLoop].
      match goal with |- context [drawLoop rnd n ?x] => destruct (IH x) as [IH1 _] end.
      rewrite IH1 by (simpl; lia). simpl. split.
      * rewrite length_app. simpl. intros Hl. destruct rest; [done|simpl in Hl; lia].
      * exists ["Deck reshuffled from discard pile."]. split; [simpl; lia|done].
  - rewrite draw_from_deck. cbn -[drawLoop].
    match goal with |- context [drawLoop rnd n ?x] => destruct (IH x) as [IH1 IH2] end.
    simpl in IH1, IH2. done.
Qed.

(** An operation logs at most two messages. *)
Lemma handle_gameLog_two op s :
  exists msgs, length msgs <= 2 /\ gameLog (handle op s) = addLogs msgs (gameLog s).
Proof.
  assert (Hnone : exists msgs, length msgs <= 2 /\ gameLog s = addLogs msgs (gameLog s)).
  { exists []. split; [simpl; lia|done]. }
  assert (Hplay : forall c pid, exists msgs,
    length msgs <= 2 /\ gameLog (executePlay c pid s) = addLogs msgs (gameLog s)).
  { intros c pid. unfold executePlay, advanceTurn.
    destruct (length _ =? 0); [done|].
    repeat case_bool_decide; simpl;
      first [ done
            | (eexists [_]; split; [simpl; lia|reflexivity])
            | (eexists [_; _]; split; [simpl; lia|reflexivity]) ]. }
  assert (Hdraw : forall rnd pid count, exists msgs,
    length msgs <= 2 /\ gameLog (performDraw rnd pid count s) = addLogs msgs (gameLog s)).
  { intros rnd pid count. rewrite performDraw_unfold. simpl.
    destruct (drawLoop_log rnd (Z.to_nat count)
      (mkLoop (deck s) (discardPile s) [] false (gameLog s))) as [_ (msgs & Hl & ->)].
    simpl. eexists (msgs ++ [_]). split; [rewrite length_app; simpl; lia|].
    by rewrite addLogs_app. }
  destruct op as [i|rnd|suit|rnd]; simpl.
  - destruct (_ !! i); [|done]. unfold handleCardClick.
    destruct (humanBlocked s); [done|].
    destruct (isValidMove _ _ _ _); [apply Hplay|done].
  - unfold handleDeckClick. destruct (humanBlocked s); [done|apply Hdraw].
  - destruct (isSuitSelectionOpen s); [|done].
    unfold handleSuitSelect, advanceTurn. simpl.
    eexists [_]. split; [simpl; lia|reflexivity].
  - unfold performAITurn. destruct (_ || _); [done|].
    destruct (last _); [|done].
    destruct (aiChoice _ _ _ _); [apply Hplay|apply Hdraw].
Qed.

(** C9, amended. The log is a window of the 50 most recent messages.
    [addLog] puts the message at the end and, when the log holds 50 entries
    already, removes the oldest one. An operation logs at most two messages:
    after it the log is the log before it without its oldest entries, as
    many as the total exceeds 50 by, the others in their order, followed by
    the new messages. Nothing is removed while the total stays within 50. *)
Theorem gameLog_window s op :
  length (gameLog s) <= 50 ->
  (forall msg,
     addLog msg (gameLog s)
     = drop (length (gameLog s) + 1 - 50) (gameLog s) ++ [msg])
  /\ exists msgs,
       length msgs <= 2
       /\ gameLog (step op s) = addLogs msgs (gameLog s)
       /\ gameLog (step op s)
          = drop (length (gameLog s) + length msgs - 50) (gameLog s) ++ msgs
       /\ (length (gameLog s) + length msgs <= 50 ->
           gameLog (step op s) = gameLog s ++ msgs).
Proof.
  intros Hlen.
  assert (Hwin : forall msgs, length msgs <= 2 ->
    addLogs msgs (gameLog s)
    = drop (length (gameLog s) + length msgs - 50) (gameLog s) ++ msgs).
  { intros msgs Hm. rewrite addLogs_lastN by done. unfold lastN.
    rewrite length_app, drop_app.
    replace (length (gameLog s) + length msgs - 50 - length (gameLog s)) with 0 by lia.
    done. }
  split.
  - intros msg. apply (Hwin [msg]). simpl. lia.
  - unfold step. rewrite winnerEffect_gameLog.
    destruct (handle_gameLog_two op s) as (msgs & Hm & ->).
    exists msgs. split; [done|]. split; [done|]. split; [by apply Hwin|].
    intros Hle. rewrite Hwin by done.
    by replace (length (gameLog s) + length msgs - 50) with 0 by lia.
Qed.

Lemma gameLog_window_witness :
  (forall msg,
     addLog msg (gameLog (passive 49 game0))
     = drop (length (gameLog (passive 49 game0)) + 1 - 50) (gameLog (passive 49 game0))
       ++ [msg])
  /\ exists msgs,
       length msgs <= 2
       /\ gameLog (step (AITurn oracle0) (passive 49 game0))
          = addLogs msgs (gameLog (passive 49 game0))
       /\ gameLog (step (AITurn oracle0) (passive 49 game0))
          = drop (length (gameLog (passive 49 game0)) + length msgs - 50)
                 (gameLog (passive 49 game0)) ++ msgs
       /\ (length (gameLog (passive 49 game0)) + length msgs <= 50 ->
           gameLog (step (AITurn oracle0) (passive 49 game0))
           = gameLog (passive 49 game0) ++ msgs).
Proof.
  apply (gameLog_window (passive 49 game0) (AITurn oracle0)).
  vm_compute. lia.
Defined.

(** C10. With no attack pending, the card the policy returns is not a Jack
    as soon as one legal move of the hand is not a Jack; it returns a Jack
    only when every legal move is one. *)
Theorem aiChoice_avoids_jack hand top su atk c :
  (atk <= 0)%Z -> aiChoice hand top su atk = Some c ->
  ((exists x, x ∈ validMovesOf hand top su atk /\ card_rank x ≠ RJ) -> card_rank c ≠ RJ)
  /\ (card_rank c = RJ -> forall x, x ∈ validMovesOf hand top su atk -> card_rank x = RJ).
Proof.
  intros Ha Hc.
  assert (Hne : validMovesOf hand top su atk ≠ []).
  { intros E. apply aiChoice_valid in Hc. rewrite E in Hc. by apply elem_of_nil in Hc. }
  destruct (aiChoice_cases hand top su atk Hne) as (c' & Hc' & _ & Hcase).
  assert (c' = c) as -> by congruence.
  destruct (decide (0 < atk)%Z); [lia|].
  destruct (filter _ _) as [|y nj] eqn:Hf.
  - destruct Hcase as [_ Hr]. split; [intros (x & Hx & Hxr)|intros _ x Hx].
    + assert (x ∈ filter (fun c => card_rank c ≠ RJ) (validMovesOf hand top su atk)) as Hin
        by by apply list_elem_of_filter.
      rewrite Hf in Hin. by apply elem_of_nil in Hin.
    + destruct (decide (card_rank x = RJ)) as [|Hxr]; [done|].
      assert (x ∈ filter (fun c => card_rank c ≠ RJ) (validMovesOf hand top su atk)) as Hin
        by by apply list_elem_of_filter.
      rewrite Hf in Hin. by apply elem_of_nil in Hin.
  - destruct Hcase as [Hr _]. split; [done|]. intros E. by destruct Hr.
Qed.

Lemma aiChoice_avoids_jack_witness :
  ((exists x, x ∈ validMovesOf [mkCard "card-9" hearts RJ; mkCard "card-42" spades R5]
                               (mkCard "card-3" hearts R5) hearts 0
              /\ card_rank x ≠ RJ) ->
   card_rank (mkCard "card-42" spades R5) ≠ RJ)
  /\ (card_rank (mkCard "card-42" spades R5) = RJ ->
      forall x, x ∈ validMovesOf [mkCard "card-9" hearts RJ; mkCard "card-42" spades R5]
                                 (mkCard "card-3" hearts R5) hearts 0 ->
                card_rank x = RJ).
Proof.
  apply (aiChoice_avoids_jack
           [mkCard "card-9" hearts RJ; mkCard "card-42" spades R5]
           (mkCard "card-3" hearts R5) hearts 0 (mkCard "card-42" spades R5)).
  - lia.
  - vm_compute. reflexivity.
Defined.

(** * Further properties of the code *)

(** ** The deck factory *)

(** X1. [createDeck] is a full deck: 52 cards, exactly one for every pair of
    a suit and a rank, and the card at position [k] has the id ["card-k"]. *)
Theorem createDeck_complete :
  length createDeck = 52
  /\ (forall su rk,
        length (filter (fun c => card_suit c = su /\ card_rank c = rk) createDeck) = 1)
  /\ (forall k c, createDeck !! k = Some c -> card_id c = "card-" +:+ pretty k).
Proof.
  split; [reflexivity|]. split.
  - intros su rk. destruct su, rk; vm_compute; reflexivity.
  - intros k c Hk.
    assert (Hlt : k < 52) by (apply lookup_lt_Some in Hk; exact Hk).
    revert Hk.
    do 52 (destruct k as [|k]; [vm_compute; by intros [= <-]|]).
    lia.
Qed.

(** X2. Whatever the random source, [shuffleDeck] returns the cards it was
    given, each as often as before, and as many of them. *)
Theorem shuffleDeck_same_cards {A} (rnd : nat -> nat) (deck : list A) :
  shuffleDeck rnd deck ≡ₚ deck /\ length (shuffleDeck rnd deck) = length deck.
Proof.
  split; [apply shuffleLoop_Permutation|].
  apply Permutation_length, shuffleLoop_Permutation.
Qed.

Lemma swap_length {A} (a : list A) i j : length (swap a i j) = length a.
Proof. apply Permutation_length, swap_Permutation. Qed.

Lemma swap_app_l {A} (a b : list A) i j :
  i < length a -> j < length a -> swap (a ++ b) i j = swap a i j ++ b.
Proof.
  intros Hi Hj. unfold swap.
  rewrite !lookup_app_l by done.
  destruct (lookup_lt_is_Some_2 a i Hi) as [ai ->].
  destruct (lookup_lt_is_Some_2 a j Hj) as [aj ->].
  rewrite insert_app_l by done.
  by rewrite insert_app_l by (by rewrite length_insert).
Qed.

Lemma swap_lookup_l {A} (a : list A) i j x :
  i < length a -> a !! j = Some x -> swap a i j !! i = Some x.
Proof.
  intros Hi Hj. unfold swap.
  destruct (lookup_lt_is_Some_2 a i Hi) as [ai Hai]. rewrite Hai, Hj.
  destruct (decide (i = j)) as [->|Hne].
  - rewrite list_lookup_insert_eq by (by rewrite length_insert). congruence.
  - rewrite list_lookup_insert_ne by done.
    by rewrite list_lookup_insert_eq.
Qed.

(** The loop at index [i] leaves the cards above [i] where they are. *)
Lemma shuffleLoop_app {A} rnd i (a b : list A) :
  i < length a -> shuffleLoop rnd i (a ++ b) = shuffleLoop rnd i a ++ b.
Proof.
  revert a; induction i as [|i IH]; intros a Hi; cbn [shuffleLoop]; [done|].
  assert (Hj : rnd (S i) mod (S i + 1) < length a).
  { pose proof (Nat.mod_upper_bound (rnd (S i)) (S i + 1)). lia. }
  rewrite swap_app_l by done.
  apply IH. rewrite swap_length. lia.
Qed.

Lemma shuffleLoop_ext {A} rnd rnd' i (a : list A) :
  (forall k, 1 <= k <= i -> rnd k = rnd' k) ->
  shuffleLoop rnd i a = shuffleLoop rnd' i a.
Proof.
  revert a; induction i as [|i IH]; intros a H; cbn [shuffleLoop]; [done|].
  rewrite (H (S i)) by lia. apply IH. intros k Hk. apply H. lia.
Qed.

(** X3. Every ordering of the cards is the outcome of [shuffleDeck] for some
    random source. *)
Theorem shuffleDeck_reaches_every_order {A} (deck target : list A) :
  deck ≡ₚ target -> exists rnd, shuffleDeck rnd deck = target.
Proof.
  revert deck. induction target as [|x target IH] using rev_ind; intros deck Hp.
  { apply Permutation_nil_r in Hp as ->. by exists (fun _ => 0). }
  assert (Hlen : length deck = S (length target)).
  { rewrite (Permutation_length Hp), length_app. simpl. lia. }
  assert (Hx : x ∈ deck).
  { rewrite Hp. apply elem_of_app. right. apply list_elem_of_here. }
  apply list_elem_of_lookup in Hx as [j Hj].
  pose proof (lookup_lt_Some _ _ _ Hj) as Hjlt.
  set (sw := swap deck (length target) j).
  assert (Hlast : last sw = Some x).
  { rewrite last_lookup. subst sw. rewrite swap_length, Hlen. simpl.
    apply swap_lookup_l; [lia|done]. }
  apply last_Some in Hlast as [rest Hrest].
  assert (Hrp : rest ≡ₚ target).
  { apply (Permutation_app_inv_r [x]). rewrite <- Hrest, <- Hp.
    apply swap_Permutation. }
  destruct (IH rest Hrp) as [rnd' Hrnd'].
  exists (fun k => if decide (k = length target) then j else rnd' k).
  unfold shuffleDeck in *. rewrite Hlen. simpl. rewrite Nat.sub_0_r.
  rewrite (Permutation_length Hrp) in Hrnd'.
  destruct (length target) as [|m] eqn:Hm.
  - simpl. simpl in Hrnd'. subst rest sw.
    destruct deck as [|y [|? ?]]; simplify_eq/=.
    destruct j; simplify_eq/=. done.
  - cbn [shuffleLoop]. rewrite decide_True by done.
    rewrite Nat.mod_small by lia.
    fold sw. rewrite Hrest.
    rewrite shuffleLoop_app by (rewrite (Permutation_length Hrp); lia).
    f_equal. simpl in Hrnd'. rewrite Nat.sub_0_r in Hrnd'. rewrite <- Hrnd'.
    apply shuffleLoop_ext. intros k Hk. rewrite decide_False by lia. done.
Qed.

Lemma shuffleDeck_reaches_every_order_witness :
  exists rnd, shuffleDeck rnd [hearts; diamonds; clubs] = [diamonds; clubs; hearts].
Proof.
  apply (shuffleDeck_reaches_every_order [hearts; diamonds; clubs] [diamonds; clubs; hearts]).
  apply (Permutation_cons_append [diamonds; clubs] hearts).
Defined.

(** ** Turn order *)


(** ** The draw engine, in general *)

Lemma drawCard_top rnd d dp log res log' :
  drawCardForPlayerLogic rnd d dp log = (res, log') ->
  last (newDiscard res) = last dp.
Proof.
  intros H.
  destruct (deck_cases d) as [->|(d' & c & ->)].
  - destruct (discard_cases dp) as [Hs|(rest & top & Hne & ->)].
    + rewrite draw_exhausted in H by done. by simplify_eq/=.
    + destruct (draw_reshuffle rnd rest top log Hne) as (c & Hc & Heq).
      rewrite Heq in H. simplify_eq/=. by rewrite last_snoc.
  - rewrite draw_from_deck in H. by simplify_eq/=.
Qed.

(** X5. One draw, whatever the piles: no card is lost or copied between
    deck, drawn card and discard pile; the top of the discard pile stays;
    a reshuffle happens only on an empty deck; and no card comes out exactly
    when the deck is empty and the discard pile has at most one card. *)
Theorem drawCard_conserves rnd d dp log :
  let res := fst (drawCardForPlayerLogic rnd d dp log) in
  newDeck res ++ option_list (card res) ++ newDiscard res ≡ₚ d ++ dp
  /\ last (newDiscard res) = last dp
  /\ (reshuffled res = true -> d = [] /\ newDiscard res = option_list (last dp))
  /\ (reshuffled res = false -> newDiscard res = dp)
  /\ (card res = None <-> d = [] /\ length dp <= 1).
Proof.
  destruct (drawCardForPlayerLogic rnd d dp log) as [res log'] eqn:H. simpl.
  pose proof (drawCard_sound _ _ _ _ _ _ H) as (Hp & Hr & _ & _).
  pose proof (drawCard_top _ _ _ _ _ _ H) as Ht.
  split; [done|]. split; [done|].
  destruct (deck_cases d) as [->|(d' & c & ->)].
  - destruct (discard_cases dp) as [Hs|(rest & top & Hne & ->)].
    + rewrite draw_exhausted in H by done. simplify_eq/=.
      repeat split; auto; done.
    + destruct (draw_reshuffle rnd rest top log Hne) as (c & Hc & Heq).
      rewrite Heq in H. simplify_eq/=. rewrite last_snoc.
      repeat split; try done.
      rewrite length_app. simpl. intros [_ Hl].
      destruct rest; [done|simpl in Hl; lia].
  - rewrite draw_from_deck in H. simplify_eq/=.
    repeat split; try done. intros [Hnil _]. by apply app_eq_nil in Hnil as [_ ?].
Qed.

Lemma drawLoop_top rnd n st :
  last (currentDP (drawLoop rnd n st)) = last (currentDP st).
Proof.
  revert st; induction n as [|n IH]; intros st; simpl; [done|].
  destruct (drawCardForPlayerLogic _ _ _ _) as [res log] eqn:Hd.
  pose proof (drawCard_top _ _ _ _ _ _ Hd) as Ht.
  destruct (card res); [rewrite IH|]; simpl; by destruct (reshuffled res).
Qed.

(** The loop draws as many cards as asked, or all that deck and discard pile
    can supply. *)
Lemma drawLoop_count rnd n st :
  length (drawnCards (drawLoop rnd n st))
  = length (drawnCards st)
    + min n (length (currentD st) + (length (currentDP st) - 1)).
Proof.
  revert st; induction n as [|n IH]; intros st; cbn [drawLoop]; [simpl; lia|].
  destruct (deck_cases (currentD st)) as [Hd|(d' & c & Hd)]; rewrite Hd.
  - destruct (discard_cases (currentDP st)) as [Hs|(rest & top & Hne & Hdp)].
    + rewrite draw_exhausted by done. cbn -[Nat.min]. lia.
    + rewrite Hdp.
      destruct (draw_reshuffle rnd rest top (loopLog st) Hne) as (c & Hc & Heq).
      rewrite Heq. cbn -[Nat.min drawLoop]. rewrite IH. cbn -[Nat.min].
      rewrite !length_app. cbn -[Nat.min].
      assert (length (removelast (shuffleDeck rnd rest)) = length rest - 1).
      { rewrite <- (shuffleDeck_length rnd rest).
        rewrite (pop_split _ _ Hc) at 2. rewrite length_app. simpl. lia. }
      assert (0 < length rest) by (destruct rest; [done|simpl; lia]).
      lia.
  - rewrite draw_from_deck. cbn -[Nat.min drawLoop]. rewrite IH. cbn -[Nat.min].
    rewrite !length_app. cbn -[Nat.min]. lia.
Qed.

Lemma performDraw_hand_length rnd pid count s :
  length (hget (hands (performDraw rnd pid count s)) pid)
  = length (hget (hands s) pid) + min (Z.to_nat count) (drawable s).
Proof.
  rewrite performDraw_unfold. cbn -[Nat.min].
  by rewrite hget_hset, length_app, drawLoop_count.
Qed.

Lemma performDraw_top rnd pid count s :
  last (discardPile (performDraw rnd pid count s)) = last (discardPile s).
Proof. rewrite performDraw_discardPile. apply drawLoop_top. Qed.

(** X6. [performDraw] gives the player as many cards as asked, or all that
    deck and discard pile (without its top card) can supply if that is
    fewer; the cards go to the end of that hand and the other hands are
    untouched. *)
Theorem performDraw_count rnd pid count s :
  length (hget (hands (performDraw rnd pid count s)) pid)
  = length (hget (hands s) pid) + min (Z.to_nat count) (drawable s)
  /\ (exists drawn, hget (hands (performDraw rnd pid count s)) pid
                    = hget (hands s) pid ++ drawn)
  /\ (forall q, q ≠ pid ->
        hget (hands (performDraw rnd pid count s)) q = hget (hands s) q).
Proof.
  split; [apply performDraw_hand_length|].
  rewrite performDraw_unfold. cbn -[Nat.min]. split.
  - rewrite hget_hset. eauto.
  - intros q Hq. by rewrite hget_hset_ne.
Qed.

(** X7. A draw of any count, reshuffle or not, leaves the top of the discard
    pile, the active suit, the winner and the pending suit selection as they
    are, passes the turn to the next player, and clears a pending attack
    (leaving the attack stack alone otherwise). *)
Theorem performDraw_keeps_table rnd pid count s :
  last (discardPile (performDraw rnd pid count s)) = last (discardPile s)
  /\ activeSuit (performDraw rnd pid count s) = activeSuit s
  /\ winner (performDraw rnd pid count s) = winner s
  /\ isSuitSelectionOpen (performDraw rnd pid count s) = isSuitSelectionOpen s
  /\ currentTurn (performDraw rnd pid count s) = getNextPlayer pid false
  /\ attackStack (performDraw rnd pid count s)
     = (if (0 <? attackStack s)%Z then 0 else attackStack s)%Z.
Proof.
  split; [apply performDraw_top|]. by rewrite performDraw_unfold.
Qed.

(** ** The non-human player *)

(** X8. After a Jack the non-human player picks a suit it holds most cards
    of, and among equally frequent suits the first in the order hearts,
    diamonds, clubs, spades. *)
Theorem bestSuitOf_most_frequent (newHand : list CardModel) (su : Suit) :
  (suitsInHand newHand su <= suitsInHand newHand (bestSuitOf newHand))%Z
  /\ (suitPrecedence su < suitPrecedence (bestSuitOf newHand) ->
      (suitsInHand newHand su < suitsInHand newHand (bestSuitOf newHand))%Z).
Proof.
  assert (Hpos : forall x, (0 <= suitsInHand newHand x)%Z)
    by (intros x; unfold suitsInHand; lia).
  pose proof (Hpos hearts). pose proof (Hpos diamonds).
  pose proof (Hpos clubs). pose proof (Hpos spades).
  unfold bestSuitOf. cbn [foldl].
  repeat match goal with
         | |- context [(?a <? ?b)%Z] => destruct (Z.ltb_spec a b); cbn [fst snd] in *
         end;
    destruct su; cbn [suitPrecedence]; split; intros; lia.
Qed.

Lemma bestSuitOf_most_frequent_witness :
  (suitsInHand [mkCard "card-14" diamonds R3; mkCard "card-27" clubs R3] hearts
   < suitsInHand [mkCard "card-14" diamonds R3; mkCard "card-27" clubs R3]
       (bestSuitOf [mkCard "card-14" diamonds R3; mkCard "card-27" clubs R3]))%Z.
Proof.
  apply (bestSuitOf_most_frequent
           [mkCard "card-14" diamonds R3; mkCard "card-27" clubs R3] hearts).
  vm_compute. lia.
Defined.

Lemma aiChoice_None hand top su atk :
  aiChoice hand top su atk = None
  <-> forall c, c ∈ hand -> isValidMove c (Some top) su atk = false.
Proof.
  split.
  - intros Hnone c Hc.
    destruct (isValidMove c (Some top) su atk) eqn:Hv; [|done].
    assert (Hne : validMovesOf hand top su atk ≠ []).
    { intros E. assert (c ∈ validMovesOf hand top su atk) as Hin
        by by apply validMovesOf_spec.
      rewrite E in Hin. by apply elem_of_nil in Hin. }
    destruct (aiChoice_cases hand top su atk Hne) as (c' & Hc' & _). congruence.
  - intros Hall.
    destruct (aiChoice hand top su atk) as [c|] eqn:Hc; [|done].
    apply aiChoice_valid, validMovesOf_spec in Hc as [Hin Hv].
    rewrite (Hall c Hin) in Hv. done.
Qed.

(** X9. The policy plays by the rules: a card it returns is in the hand and
    is a legal move, and it returns none exactly when no card of the hand is
    a legal move. *)
Theorem aiChoice_sound_complete hand top su atk :
  (forall c, aiChoice hand top su atk = Some c ->
             c ∈ hand /\ isValidMove c (Some top) su atk = true)
  /\ (aiChoice hand top su atk = None
      <-> forall c, c ∈ hand -> isValidMove c (Some top) su atk = false).
Proof.
  split; [|apply aiChoice_None].
  intros c Hc. by apply aiChoice_valid, validMovesOf_spec in Hc.
Qed.

Lemma performAITurn_enabled rnd s top :
  currentTurn s ≠ south -> winner s = None -> isDealing s = false ->
  last (discardPile s) = Some top ->
  performAITurn rnd s
  = match aiChoice (hget (hands s) (currentTurn s)) top (activeSuit s) (attackStack s) with
    | Some choice => executePlay choice (currentTurn s) s
    | None => performDraw rnd (currentTurn s) (drawCount s) s
    end.
Proof.
  intros Ht Hw Hd Hl. unfold performAITurn.
  rewrite (bool_decide_eq_false_2 (currentTurn s = south)) by done.
  rewrite Hw, Hd, Hl. done.
Qed.

Lemma reachable_top s : Inv s -> exists top, last (discardPile s) = Some top.
Proof.
  intros HI. destruct (last (discardPile s)) as [top|] eqn:Hl; [eauto|].
  by apply last_None_nil, (inv_discard s HI) in Hl.
Qed.

(** X10. The turn of a non-human player, in a game that is not over: it
    plays a card of its hand that is a legal move on the top of the discard
    pile, or, holding no legal move, it draws what it owes (the attack stack,
    or one card). *)
Theorem performAITurn_plays_or_draws rnd s :
  reachable s -> currentTurn s ≠ south -> winner s = None ->
  exists top,
    last (discardPile s) = Some top
    /\ ((exists c,
           c ∈ hget (hands s) (currentTurn s)
           /\ isValidMove c (Some top) (activeSuit s) (attackStack s) = true
           /\ step (AITurn rnd) s = executePlay c (currentTurn s) s)
        \/ ((forall c, c ∈ hget (hands s) (currentTurn s) ->
                       isValidMove c (Some top) (activeSuit s) (attackStack s) = false)
            /\ step (AITurn rnd) s
               = performDraw rnd (currentTurn s)
                   (if (0 <? attackStack s)%Z then attackStack s else 1%Z) s)).
Proof.
  intros HI%reachable_Inv Ht Hw.
  destruct (reachable_top s HI) as [top Hl]. exists top. split; [done|].
  rewrite step_handle by done. simpl.
  rewrite (performAITurn_enabled rnd s top Ht Hw (inv_dealing s HI) Hl).
  destruct (aiChoice _ _ _ _) as [c|] eqn:Hc.
  - left. exists c. by apply aiChoice_valid, validMovesOf_spec in Hc as [? ?].
  - right. split; [|done]. by apply aiChoice_None.
Qed.

Lemma performAITurn_plays_or_draws_witness :
  exists top,
    last (discardPile lastJackState) = Some top
    /\ ((exists c,
           c ∈ hget (hands lastJackState) (currentTurn lastJackState)
           /\ isValidMove c (Some top) (activeSuit lastJackState)
                (attackStack lastJackState) = true
           /\ step (AITurn oracle6) lastJackState
              = executePlay c (currentTurn lastJackState) lastJackState)
        \/ ((forall c, c ∈ hget (hands lastJackState) (currentTurn lastJackState) ->
                       isValidMove c (Some top) (activeSuit lastJackState)
                         (attackStack lastJackState) = false)
            /\ step (AITurn oracle6) lastJackState
               = performDraw oracle6 (currentTurn lastJackState)
                   (if (0 <? attackStack lastJackState)%Z
                    then attackStack lastJackState else 1%Z) lastJackState)).
Proof.
  apply (performAITurn_plays_or_draws oracle6 lastJackState).
  - apply reachable_passive, reach_deal.
  - vm_compute. discriminate.
  - vm_compute. reflexivity.
Defined.

(** X11. A player under attack who cannot answer pays in full: when a
    non-human player holds no 2 while the attack stack is positive, and deck
    and discard pile can supply that many cards, its turn adds exactly the
    attack stack to its hand, clears the stack and passes the turn to the
    next player. *)
Theorem attack_is_paid rnd s :
  reachable s -> currentTurn s ≠ south -> winner s = None ->
  (0 < attackStack s)%Z ->
  (forall c, c ∈ hget (hands s) (currentTurn s) -> card_rank c ≠ R2) ->
  Z.to_nat (attackStack s) <= drawable s ->
  length (hget (hands (step (AITurn rnd) s)) (currentTurn s))
  = length (hget (hands s) (currentTurn s)) + Z.to_nat (attackStack s)
  /\ attackStack (step (AITurn rnd) s) = 0%Z
  /\ currentTurn (step (AITurn rnd) s) = getNextPlayer (currentTurn s) false
  /\ last (discardPile (step (AITurn rnd) s)) = last (discardPile s).
Proof.
  intros HI%reachable_Inv Ht Hw Ha Hno Hsup.
  destruct (reachable_top s HI) as [top Hl].
  rewrite step_handle by done. simpl.
  rewrite (performAITurn_enabled rnd s top Ht Hw (inv_dealing s HI) Hl).
  destruct (aiChoice _ _ _ _) as [c|] eqn:Hc.
  { apply aiChoice_valid, validMovesOf_spec in Hc as [Hc Hv].
    apply isValidMove_attack in Hv; [|done]. by apply Hno in Hc. }
  unfold drawCount. rewrite (proj2 (Z.ltb_lt 0 (attackStack s))) by done.
  rewrite performDraw_hand_length, performDraw_top.
  rewrite performDraw_unfold. cbn -[Nat.min].
  rewrite (proj2 (Z.ltb_lt 0 (attackStack s))) by done.
  repeat split; try done. lia.
Qed.

Lemma attack_is_paid_witness :
  length (hget (hands (step (AITurn oracle0) attackState)) (currentTurn attackState))
  = length (hget (hands attackState) (currentTurn attackState))
    + Z.to_nat (attackStack attackState)
  /\ attackStack (step (AITurn oracle0) attackState) = 0%Z
  /\ currentTurn (step (AITurn oracle0) attackState)
     = getNextPlayer (currentTurn attackState) false
  /\ last (discardPile (step (AITurn oracle0) attackState))
     = last (discardPile attackState).
Proof.
  apply (attack_is_paid oracle0 attackState).
  - apply reachable_passive, reach_deal.
  - vm_compute. discriminate.
  - vm_compute. reflexivity.
  - vm_compute. reflexivity.
  - apply (Forall_forall (fun c => card_rank c ≠ R2)).
    apply (bool_decide_unpack _). vm_compute. reflexivity.
  - vm_compute. lia.
Defined.

(** ** What the handlers refuse *)

Lemma executePlay_changes card pid s : executePlay card pid s ≠ s.
Proof.
  intros E. pose proof (executePlay_discardPile card pid s) as H.
  rewrite E in H. apply (f_equal length) in H.
  rewrite length_app in H. simpl in H. lia.
Qed.

(** X12. Out of turn, nothing happens: in a game, a click on a card or on the
    deck while it is not the human's turn, the turn of a non-human player
    while it is the human's, a click on a card that is not a legal move, and
    a click past the end of the hand all leave the state as it is. *)
Theorem rejected_actions s :
  reachable s ->
  (currentTurn s ≠ south ->
   forall i rnd, step (CardClick i) s = s /\ step (DeckClick rnd) s = s)
  /\ (currentTurn s = south -> forall rnd, step (AITurn rnd) s = s)
  /\ (forall i c, h_south (hands s) !! i = Some c ->
        isValidMove c (last (discardPile s)) (activeSuit s) (attackStack s) = false ->
        step (CardClick i) s = s)
  /\ (forall i, length (h_south (hands s)) <= i -> step (CardClick i) s = s).
Proof.
  intros HI%reachable_Inv.
  assert (Hblock : currentTurn s ≠ south -> humanBlocked s = true).
  { intros Ht. unfold humanBlocked.
    by rewrite (bool_decide_eq_false_2 (currentTurn s = south)). }
  repeat split.
  - rewrite step_handle by done. simpl.
    destruct (_ !! i); [|done]. unfold handleCardClick. by rewrite Hblock.
  - rewrite step_handle by done. simpl. unfold handleDeckClick. by rewrite Hblock.
  - intros Ht rnd. rewrite step_handle by done. simpl. unfold performAITurn.
    by rewrite (bool_decide_eq_true_2 (currentTurn s = south)).
  - intros i c Hc Hv. rewrite step_handle by done. simpl. rewrite Hc.
    unfold handleCardClick. rewrite Hv. by destruct (humanBlocked s).
  - intros i Hi. rewrite step_handle by done. simpl.
    by rewrite (lookup_ge_None_2 _ _ Hi).
Qed.

Lemma rejected_actions_witness :
  (currentTurn attackState ≠ south ->
   forall i rnd, step (CardClick i) attackState = attackState
                 /\ step (DeckClick rnd) attackState = attackState)
  /\ (currentTurn attackState = south -> forall rnd, step (AITurn rnd) attackState = attackState)
  /\ (forall i c, h_south (hands attackState) !! i = Some c ->
        isValidMove c (last (discardPile attackState)) (activeSuit attackState)
          (attackStack attackState) = false ->
        step (CardClick i) attackState = attackState)
  /\ (forall i, length (h_south (hands attackState)) <= i ->
        step (CardClick i) attackState = attackState).
Proof. apply (rejected_actions attackState), reachable_passive, reach_deal. Defined.

(** X13. The cards the render marks as playable are the cards a click plays:
    in a game, a click on a card flagged [playable] runs [executePlay] and
    changes the state, and a click on any other card changes nothing. *)
Theorem playable_iff_accepted s card :
  reachable s ->
  (playable card s = true ->
   handleCardClick card s = executePlay card south s /\ handleCardClick card s ≠ s)
  /\ (playable card s = false -> handleCardClick card s = s).
Proof.
  intros HI%reachable_Inv.
  unfold playable, isSouthTurn, handleCardClick, humanBlocked.
  rewrite (inv_dealing s HI).
  destruct (reachable_top s HI) as [top ->].
  destruct (bool_decide (currentTurn s = south)),
    (bool_decide (winner s ≠ None)), (isSuitSelectionOpen s),
    (isValidMove card (Some top) (activeSuit s) (attackStack s)); simpl;
    split; intros; try done.
  split; [done|apply executePlay_changes].
Qed.

Lemma playable_iff_accepted_witness :
  handleCardClick (mkCard "card-35" clubs RJ) game0
  = executePlay (mkCard "card-35" clubs RJ) south game0
  /\ handleCardClick (mkCard "card-35" clubs RJ) game0 ≠ game0.
Proof.
  apply (playable_iff_accepted game0 (mkCard "card-35" clubs RJ)).
  - apply reach_deal.
  - vm_compute. reflexivity.
Defined.

(** X14. While the human has to pick a suit the game waits: in a game with
    the suit selection open, card clicks, deck clicks and non-human turns
    change nothing, and the pick of a suit makes it the active suit, closes
    the selection and passes the turn to West, with deck, hands, discard
    pile and attack stack as they were. *)
Theorem suit_selection_pending s :
  reachable s -> isSuitSelectionOpen s = true ->
  (forall i, step (CardClick i) s = s)
  /\ (forall rnd, step (DeckClick rnd) s = s)
  /\ (forall rnd, step (AITurn rnd) s = s)
  /\ (forall su,
        activeSuit (step (SuitSelect su) s) = su
        /\ isSuitSelectionOpen (step (SuitSelect su) s) = false
        /\ currentTurn (step (SuitSelect su) s) = west
        /\ deck (step (SuitSelect su) s) = deck s
        /\ hands (step (SuitSelect su) s) = hands s
        /\ discardPile (step (SuitSelect su) s) = discardPile s
        /\ attackStack (step (SuitSelect su) s) = attackStack s).
Proof.
  intros HI%reachable_Inv Hs.
  destruct (inv_suit s HI Hs) as [Ht Hw].
  assert (Hblock : humanBlocked s = true).
  { unfold humanBlocked. rewrite Hs. by rewrite orb_true_r. }
  repeat split; try (intros; rewrite step_handle by done; simpl).
  - destruct (_ !! _); [|done]. unfold handleCardClick. by rewrite Hblock.
  - unfold handleDeckClick. by rewrite Hblock.
  - unfold performAITurn. by rewrite (bool_decide_eq_true_2 (currentTurn s = south)).
  - by rewrite Hs.
  - by rewrite Hs.
  - by rewrite Hs.
  - by rewrite Hs.
  - by rewrite Hs.
  - by rewrite Hs.
  - by rewrite Hs.
Qed.

Lemma suit_selection_pending_witness :
  (forall i, step (CardClick i) suitPendingState = suitPendingState)
  /\ (forall rnd, step (DeckClick rnd) suitPendingState = suitPendingState)
  /\ (forall rnd, step (AITurn rnd) suitPendingState = suitPendingState)
  /\ (forall su,
        activeSuit (step (SuitSelect su) suitPendingState) = su
        /\ isSuitSelectionOpen (step (SuitSelect su) suitPendingState) = false
        /\ currentTurn (step (SuitSelect su) suitPendingState) = west
        /\ deck (step (SuitSelect su) suitPendingState) = deck suitPendingState
        /\ hands (step (SuitSelect su) suitPendingState) = hands suitPendingState
        /\ discardPile (step (SuitSelect su) suitPendingState)
           = discardPile suitPendingState
        /\ attackStack (step (SuitSelect su) suitPendingState)
           = attackStack suitPendingState).
Proof.
  apply (suit_selection_pending suitPendingState).
  - apply reach_step, reach_deal.
  - vm_compute. reflexivity.
Defined.

(** ** What a play does *)

Lemma newHand_length (hand : list CardModel) c :
  NoDup (card_id <$> hand) -> c ∈ hand ->
  length hand = S (length (filter (fun c' => card_id c' ≠ card_id c) hand)).
Proof.
  intros Hnd Hin. rewrite (filter_id_remove hand c Hnd Hin) at 1.
  rewrite length_app. simpl. lia.
Qed.

(** X15. The effects of a play that does not empty the hand. An Ace passes
    the turn two seats on; a 2 adds 2 to the attack stack; both, like every
    card but a Jack, make their suit the active suit and (but for the Ace)
    pass the turn one seat on. A Jack of the human opens the suit selection
    and keeps turn and active suit; a Jack of a non-human player makes the
    suit it holds most of the active suit and passes the turn. The attack
    stack changes on a 2 only, and there is no winner yet. The attack stack
    is taken within the safe integers, where the addition of the source is
    exact. *)
Theorem executePlay_effects card pid s :
  safeToAdd2 (attackStack s) ->
  filter (fun c => card_id c ≠ card_id card) (hget (hands s) pid) ≠ [] ->
  winner (executePlay card pid s) = winner s
  /\ (card_rank card = RA ->
      currentTurn (executePlay card pid s) = getNextPlayer pid true
      /\ activeSuit (executePlay card pid s) = card_suit card
      /\ attackStack (executePlay card pid s) = attackStack s)
  /\ (card_rank card = R2 ->
      currentTurn (executePlay card pid s) = getNextPlayer pid false
      /\ activeSuit (executePlay card pid s) = card_suit card
      /\ attackStack (executePlay card pid s) = (attackStack s + 2)%Z)
  /\ (card_rank card = RJ -> pid = south ->
      currentTurn (executePlay card pid s) = currentTurn s
      /\ activeSuit (executePlay card pid s) = activeSuit s
      /\ isSuitSelectionOpen (executePlay card pid s) = true
      /\ attackStack (executePlay card pid s) = attackStack s)
  /\ (card_rank card = RJ -> pid ≠ south ->
      currentTurn (executePlay card pid s) = getNextPlayer pid false
      /\ activeSuit (executePlay card pid s)
         = bestSuitOf (filter (fun c => card_id c ≠ card_id card) (hget (hands s) pid))
      /\ isSuitSelectionOpen (executePlay card pid s) = isSuitSelectionOpen s
      /\ attackStack (executePlay card pid s) = attackStack s)
  /\ (card_rank card ≠ RA -> card_rank card ≠ R2 -> card_rank card ≠ RJ ->
      currentTurn (executePlay card pid s) = getNextPlayer pid false
      /\ activeSuit (executePlay card pid s) = card_suit card
      /\ attackStack (executePlay card pid s) = attackStack s).
Proof.
  intros _ Hne. unfold executePlay, advanceTurn.
  rewrite length_eqb_0, (bool_decide_eq_false_2 _ Hne).
  repeat case_bool_decide; simpl; repeat split; intros; congruence.
Qed.

Lemma executePlay_effects_witness :
  currentTurn (executePlay (mkCard "card-51" spades RA) south game0)
  = getNextPlayer south true
  /\ activeSuit (executePlay (mkCard "card-51" spades RA) south game0) = spades
  /\ attackStack (executePlay (mkCard "card-51" spades RA) south game0)
     = attackStack game0.
Proof.
  apply (executePlay_effects (mkCard "card-51" spades RA) south game0).
  - unfold safeToAdd2. vm_compute. split; discriminate.
  - vm_compute. discriminate.
  - reflexivity.
Defined.

(** X16. In a game, the play of a card of a hand moves that card, and no
    other, from the hand to the top of the discard pile: the hand is one
    card shorter and no longer holds it, and the deck and the other hands
    are untouched. *)
Theorem executePlay_moves_card card pid s :
  reachable s -> card ∈ hget (hands s) pid ->
  hget (hands (executePlay card pid s)) pid ++ [card] ≡ₚ hget (hands s) pid
  /\ (card ∉ hget (hands (executePlay card pid s)) pid)
  /\ S (length (hget (hands (executePlay card pid s)) pid)) = length (hget (hands s) pid)
  /\ (forall q, q ≠ pid -> hget (hands (executePlay card pid s)) q = hget (hands s) q)
  /\ deck (executePlay card pid s) = deck s
  /\ discardPile (executePlay card pid s) = discardPile s ++ [card]
  /\ last (discardPile (executePlay card pid s)) = Some card.
Proof.
  intros HI%reachable_Inv Hin.
  pose proof (Inv_hand_NoDup s pid HI) as Hnd.
  rewrite executePlay_hands, executePlay_deck, executePlay_discardPile, hget_hset.
  split; [symmetry; by apply filter_id_remove|]. split; [|split; [|split]].
  - intros [Hid _]%list_elem_of_filter. by apply Hid.
  - symmetry. by apply newHand_length.
  - intros q Hq. by rewrite hget_hset_ne.
  - by rewrite last_snoc.
Qed.

Lemma executePlay_moves_card_witness :
  hget (hands (executePlay (mkCard "card-35" clubs RJ) south game0)) south
    ++ [mkCard "card-35" clubs RJ] ≡ₚ hget (hands game0) south
  /\ (mkCard "card-35" clubs RJ
      ∉ hget (hands (executePlay (mkCard "card-35" clubs RJ) south game0)) south)
  /\ S (length (hget (hands (executePlay (mkCard "card-35" clubs RJ) south game0)) south))
     = length (hget (hands game0) south)
  /\ (forall q, q ≠ south ->
        hget (hands (executePlay (mkCard "card-35" clubs RJ) south game0)) q
        = hget (hands game0) q)
  /\ deck (executePlay (mkCard "card-35" clubs RJ) south game0) = deck game0
  /\ discardPile (executePlay (mkCard "card-35" clubs RJ) south game0)
     = discardPile game0 ++ [mkCard "card-35" clubs RJ]
  /\ last (discardPile (executePlay (mkCard "card-35" clubs RJ) south game0))
     = Some (mkCard "card-35" clubs RJ).
Proof.
  apply (executePlay_moves_card (mkCard "card-35" clubs RJ) south game0).
  - apply reach_deal.
  - apply (bool_decide_unpack _). vm_compute. reflexivity.
Defined.

(** X17. The Jack of the human, in two steps. In a game, on the human's
    turn with no attack pending, a click on a Jack that is not the last card
    puts it on the discard pile and opens the suit selection with turn and
    active suit unchanged; the pick of a suit then makes it the active suit
    and passes the turn to West, the Jack still on top and the attack stack
    as before. *)
Theorem human_jack_then_suit s i card su :
  reachable s ->
  currentTurn s = south -> winner s = None -> isSuitSelectionOpen s = false ->
  (attackStack s <= 0)%Z ->
  h_south (hands s) !! i = Some card -> card_rank card = RJ ->
  2 <= length (h_south (hands s)) ->
  isSuitSelectionOpen (step (CardClick i) s) = true
  /\ currentTurn (step (CardClick i) s) = south
  /\ activeSuit (step (CardClick i) s) = activeSuit s
  /\ last (discardPile (step (CardClick i) s)) = Some card
  /\ activeSuit (step (SuitSelect su) (step (CardClick i) s)) = su
  /\ currentTurn (step (SuitSelect su) (step (CardClick i) s)) = west
  /\ isSuitSelectionOpen (step (SuitSelect su) (step (CardClick i) s)) = false
  /\ attackStack (step (SuitSelect su) (step (CardClick i) s)) = attackStack s
  /\ last (discardPile (step (SuitSelect su) (step (CardClick i) s))) = Some card
  /\ S (length (h_south (hands (step (SuitSelect su) (step (CardClick i) s)))))
     = length (h_south (hands s)).
Proof.
  intros HI%reachable_Inv Ht Hw Hs Ha Hi Hr Hlen.
  assert (HI1 : Inv (step (CardClick i) s)) by by apply step_Inv.
  destruct (reachable_top s HI) as [top Hl].
  assert (Hin : card ∈ hget (hands s) south) by by apply list_elem_of_lookup_2 in Hi.
  pose proof (newHand_length _ card (Inv_hand_NoDup s south HI) Hin) as Hn.
  assert (Hplay : step (CardClick i) s
                  = setIsSuitSelectionOpen true
                      (setDiscardPile (discardPile s ++ [card])
                         (setHands (hset (hands s) south
                            (filter (fun c => card_id c ≠ card_id card)
                                    (hget (hands s) south))) s))).
  { rewrite step_handle by done. simpl. rewrite Hi.
    unfold handleCardClick, humanBlocked. rewrite Ht, Hw, Hs, Hl. simpl.
    unfold isValidMove. rewrite (proj2 (Z.ltb_ge 0 (attackStack s))) by lia.
    rewrite (bool_decide_eq_true_2 _ Hr).
    unfold executePlay. rewrite (bool_decide_eq_true_2 _ Hr).
    destruct (filter _ _) as [|x l] eqn:Hf; [simpl in Hn, Hlen; lia|]. done. }
  rewrite (step_handle (SuitSelect su)) by done. rewrite Hplay.
  simpl. rewrite last_snoc. repeat split; done.
Qed.

Lemma human_jack_then_suit_witness :
  exists card,
    h_south (hands game0) !! 4 = Some card
    /\ isSuitSelectionOpen (step (CardClick 4) game0) = true
    /\ currentTurn (step (CardClick 4) game0) = south
    /\ activeSuit (step (CardClick 4) game0) = activeSuit game0
    /\ last (discardPile (step (CardClick 4) game0)) = Some card
    /\ activeSuit (step (SuitSelect spades) (step (CardClick 4) game0)) = spades
    /\ currentTurn (step (SuitSelect spades) (step (CardClick 4) game0)) = west
    /\ isSuitSelectionOpen (step (SuitSelect spades) (step (CardClick 4) game0)) = false
    /\ attackStack (step (SuitSelect spades) (step (CardClick 4) game0))
       = attackStack game0
    /\ last (discardPile (step (SuitSelect spades) (step (CardClick 4) game0)))
       = Some card
    /\ S (length (h_south (hands (step (SuitSelect spades) (step (CardClick 4) game0)))))
       = length (h_south (hands game0)).
Proof.
  eexists. split; [vm_compute; reflexivity|].
  apply (human_jack_then_suit game0 4 _ spades).
  - apply reach_deal.
  - vm_compute. reflexivity.
  - vm_compute. reflexivity.
  - vm_compute. reflexivity.
  - vm_compute. discriminate.
  - vm_compute. reflexivity.
  - reflexivity.
  - vm_compute. lia.
Defined.

(** ** The deal, exactly *)

Lemma dealTicks_hand_length n i s p :
  n <= length (deck s) ->
  length (hget (hands (dealTicks n i s)) p)
  = length (hget (hands s) p) + ticksFor p n i.
Proof.
  revert i s; induction n as [|n IH]; intros i s Hn.
  { unfold ticksFor. simpl. lia. }
  assert (Hne : deck s ≠ []) by (intros E; rewrite E in Hn; simpl in Hn; lia).
  destruct (dealTick_sound i s Hne) as (_ & Hl & Hh & _).
  cbn [dealTicks]. rewrite IH by lia. rewrite Hh.
  unfold ticksFor. cbn [seq]. rewrite filter_cons.
  destruct (decide (targetPlayer i = p)) as [<-|Hp].
  - rewrite decide_True by done. simpl. lia.
  - rewrite decide_False by congruence. lia.
Qed.

(** X18. The table after the first deal, the one that starts from the
    initial state of the component and whose 32 ticks and [finishDealing]
    run with nothing in between, whatever the shuffle: eight cards in every
    hand, one card on the discard pile, 19 in the deck; it is South's turn,
    there is no winner, no suit selection is open, the active suit is that
    of the start card, the attack stack is 2 if the start card is a 2 and 0
    otherwise, and the log holds one message. *)
Theorem startDeal_table rnd :
  (forall p, length (hget (hands (startDeal rnd initialState)) p) = 8)
  /\ length (deck (startDeal rnd initialState)) = 19
  /\ currentTurn (startDeal rnd initialState) = south
  /\ winner (startDeal rnd initialState) = None
  /\ isDealing (startDeal rnd initialState) = false
  /\ isSuitSelectionOpen (startDeal rnd initialState) = false
  /\ length (gameLog (startDeal rnd initialState)) = 1
  /\ exists startCard,
       discardPile (startDeal rnd initialState) = [startCard]
       /\ activeSuit (startDeal rnd initialState) = card_suit startCard
       /\ attackStack (startDeal rnd initialState)
          = (if bool_decide (card_rank startCard = R2) then 2 else 0)%Z.
Proof.
  unfold startDeal.
  set (s := setDiscardPile [] _).
  assert (Hdeck : deck s = shuffleDeck rnd createDeck) by reflexivity.
  assert (Hhands : hands s = mkHands [] [] [] []) by reflexivity.
  assert (Hlog : gameLog s = []) by reflexivity.
  assert (Hwin : winner s = None) by reflexivity.
  assert (Hsel : isSuitSelectionOpen s = false) by reflexivity.
  clearbody s.
  assert (Hlen : length (deck s) = 52) by by rewrite Hdeck, shuffleDeck_length.
  change (HAND_SIZE * 4) with (4 + 28).
  destruct (dealTicks_sound (4 + 28) 0 s) as (_ & Hl & _ & _ & Hs & Hg & Hw); [lia|].
  assert (Hh : forall p, length (hget (hands (dealTicks (4 + 28) 0 s)) p) = 8).
  { intros p. rewrite dealTicks_hand_length by lia. rewrite Hhands.
    destruct p; reflexivity. }
  set (s1 := dealTicks (4 + 28) 0 s) in *. clearbody s1.
  destruct (deck_cases (deck s1)) as [E|(d & c & E)].
  { rewrite E in Hl. simpl in Hl. lia. }
  rewrite (finishDealing_sound s1 c d E).
  cbn [deck discardPile hands currentTurn activeSuit winner isDealing
       isSuitSelectionOpen gameLog attackStack].
  split; [done|]. split.
  { rewrite E, length_app in Hl. simpl in Hl. lia. }
  split; [done|]. split; [congruence|]. split; [done|]. split; [congruence|]. split.
  { rewrite Hg, Hlog. by rewrite addLog_short by (simpl; lia). }
  by exists c.
Qed.

(** A deal does not touch the pending suit selection. *)
Lemma startDeal_isSuitSelectionOpen rnd s0 :
  isSuitSelectionOpen (startDeal rnd s0) = isSuitSelectionOpen s0.
Proof. by destruct (startDeal_shape rnd s0) as (h & d & c & -> & _). Qed.

(** X19. A new deal does not cancel a pending suit selection: the selection
    is open after the deal exactly if it was open before, and if it is, the
    pick of a suit is the first move of the new game: it sets the active
    suit, whatever the start card, and passes the turn to West with all
    hands as dealt. *)
Theorem startDeal_keeps_selection rnd s0 :
  isSuitSelectionOpen (startDeal rnd s0) = isSuitSelectionOpen s0
  /\ (isSuitSelectionOpen s0 = true ->
      forall su,
        activeSuit (step (SuitSelect su) (startDeal rnd s0)) = su
        /\ currentTurn (step (SuitSelect su) (startDeal rnd s0)) = west
        /\ hands (step (SuitSelect su) (startDeal rnd s0)) = hands (startDeal rnd s0)
        /\ discardPile (step (SuitSelect su) (startDeal rnd s0))
           = discardPile (startDeal rnd s0)).
Proof.
  split; [apply startDeal_isSuitSelectionOpen|].
  intros Hs su. rewrite step_handle by apply startDeal_Inv. cbn [handle].
  rewrite startDeal_isSuitSelectionOpen, Hs.
  by destruct (startDeal_shape rnd s0) as (h & d & c & -> & _).
Qed.

Lemma startDeal_keeps_selection_witness :
  activeSuit (step (SuitSelect spades) (startDeal oracle6 suitPendingState)) = spades
  /\ currentTurn (step (SuitSelect spades) (startDeal oracle6 suitPendingState)) = west
  /\ hands (step (SuitSelect spades) (startDeal oracle6 suitPendingState))
     = hands (startDeal oracle6 suitPendingState)
  /\ discardPile (step (SuitSelect spades) (startDeal oracle6 suitPendingState))
     = discardPile (startDeal oracle6 suitPendingState).
Proof.
  apply (startDeal_keeps_selection oracle6 suitPendingState).
  vm_compute. reflexivity.
Defined.

(** ** Invariants of a game *)

Lemma executePlay_suitFollowsTop card pid s :
  isSuitSelectionOpen s = false -> winner (executePlay card pid s) = None ->
  suitFollowsTop (executePlay card pid s).
Proof.
  intros Hs Hw. exists card.
  rewrite executePlay_discardPile, last_snoc. split; [done|].
  revert Hw. unfold executePlay, advanceTurn.
  destruct (length _ =? 0); [done|].
  repeat case_bool_decide; simpl; intros; split; intros; congruence.
Qed.

Lemma performDraw_suitFollowsTop rnd pid count s :
  suitFollowsTop s -> suitFollowsTop (performDraw rnd pid count s).
Proof.
  intros (top & Hl & H1 & H2). exists top.
  rewrite performDraw_top. split; [done|].
  by rewrite performDraw_unfold.
Qed.

Lemma handle_suitFollowsTop op s :
  Inv s -> suitFollowsTop s -> winner (handle op s) = None ->
  suitFollowsTop (handle op s).
Proof.
  intros HI HJ. destruct op as [i|rnd|suit|rnd]; simpl.
  - destruct (_ !! i) as [c|]; [|done]. unfold handleCardClick.
    destruct (humanBlocked s) eqn:Hb; [done|].
    apply humanBlocked_false in Hb as (_ & _ & Hs).
    destruct (isValidMove _ _ _ _); [|done].
    by apply executePlay_suitFollowsTop.
  - unfold handleDeckClick. destruct (humanBlocked s); [done|].
    intros _. by apply performDraw_suitFollowsTop.
  - destruct (isSuitSelectionOpen s) eqn:Hs; [|done]. intros _.
    destruct HJ as (top & Hl & H1 & _). exists top.
    unfold handleSuitSelect, advanceTurn. simpl. split; [done|].
    split; [done|]. intros _ Hr. by destruct Hr; apply H1.
  - unfold performAITurn.
    destruct (_ || _) eqn:Hg; [done|].
    apply orb_false_iff in Hg as [Hg _]. apply orb_false_iff in Hg as [Ht _].
    apply bool_decide_eq_false in Ht.
    assert (Hs : isSuitSelectionOpen s = false).
    { destruct (isSuitSelectionOpen s) eqn:E; [|done].
      by apply (inv_suit s HI) in E as [? _]. }
    destruct (last (discardPile s)); [|done].
    destruct (aiChoice _ _ _ _).
    + by apply executePlay_suitFollowsTop.
    + intros _. by apply performDraw_suitFollowsTop.
Qed.

(** X20. An operation keeps the active suit in step with the top of the
    discard pile. When it is started in a state of a game where the two
    agree (the top card is a Jack while a suit is to be picked, and otherwise
    a top card that is not a Jack has the active suit) and it leaves no
    winner, they agree in the state it ends in. *)
Theorem activeSuit_follows_top s op :
  reachable s -> suitFollowsTop s -> winner (step op s) = None ->
  suitFollowsTop (step op s).
Proof.
  intros HI%reachable_Inv HJ.
  rewrite step_handle by done. by apply handle_suitFollowsTop.
Qed.

Lemma activeSuit_follows_top_witness : suitFollowsTop (step (CardClick 4) game0).
Proof.
  apply (activeSuit_follows_top game0 (CardClick 4)).
  - apply reach_deal.
  - exists (mkCard "card-19" diamonds R8). vm_compute.
    split; [reflexivity|]. split; [discriminate|reflexivity].
  - vm_compute. reflexivity.
Defined.

Lemma handle_winner op s p :
  winner s = None -> winner (handle op s) = Some p ->
  hget (hands (handle op s)) p = [].
Proof.
  intros Hw.
  assert (Hplay : forall c pid,
    winner (executePlay c pid s) = Some p -> hget (hands (executePlay c pid s)) p = []).
  { intros c pid. rewrite executePlay_winner, executePlay_hands, length_eqb_0, Hw.
    case_bool_decide as Hf; [|done]. intros [= <-]. by rewrite hget_hset. }
  assert (Hdraw : forall rnd pid count,
    winner (performDraw rnd pid count s) = Some p ->
    hget (hands (performDraw rnd pid count s)) p = []).
  { intros rnd pid count. rewrite performDraw_unfold. simpl. congruence. }
  destruct op as [i|rnd|suit|rnd]; simpl.
  - destruct (_ !! i) as [c|]; [|congruence]. unfold handleCardClick.
    destruct (humanBlocked s); [congruence|].
    destruct (isValidMove _ _ _ _); [apply Hplay|congruence].
  - unfold handleDeckClick. destruct (humanBlocked s); [congruence|apply Hdraw].
  - destruct (isSuitSelectionOpen s); [|congruence].
    unfold handleSuitSelect, advanceTurn. simpl. congruence.
  - unfold performAITurn. destruct (_ || _); [congruence|].
    destruct (last _); [|congruence].
    destruct (aiChoice _ _ _ _); [apply Hplay|apply Hdraw].
Qed.

(** X21. An operation makes the player it takes the last card from the
    winner, and no one else: started in a state of a game without a winner,
    it ends with a player as winner exactly when the hand of that player is
    empty. *)
Theorem winner_iff_empty_hand s op p :
  reachable s -> winner s = None ->
  (winner (step op s) = Some p <-> hget (hands (step op s)) p = []).
Proof.
  intros HI%reachable_Inv Hw. split.
  - rewrite step_handle by done. by apply handle_winner.
  - apply (inv_winner (step op s)). by apply step_Inv.
Qed.

Lemma winner_iff_empty_hand_witness :
  winner (step (AITurn oracle0) westLastCard) = Some west
  <-> hget (hands (step (AITurn oracle0) westLastCard)) west = [].
Proof.
  apply (winner_iff_empty_hand westLastCard (AITurn oracle0) west).
  - apply reachable_passive, reach_deal.
  - vm_compute. reflexivity.
Defined.

Lemma logged_nonempty log log' : logged log log' -> log ≠ [] -> log' ≠ [].
Proof.
  intros [msgs ->]. revert log. induction msgs as [|m msgs IH]; intros log Hne; [done|].
  apply IH. unfold addLog. destruct (50 <? _) eqn:E.
  - apply Nat.ltb_lt in E. rewrite length_app in E. simpl in E.
    destruct log as [|x [|y l]]; simpl in *; [lia|lia|done].
  - by destruct log.
Qed.

(** X22. In a game the log is never empty and never longer than 50 entries. *)
Theorem gameLog_bounds s :
  reachable s -> 1 <= length (gameLog s) <= 50.
Proof.
  intros Hr. split; [|apply (inv_log s (reachable_Inv s Hr))].
  assert (gameLog s ≠ []) as Hne.
  { induction Hr as [rnd s0|op s Hr IH].
    - destruct (startDeal_shape rnd s0) as (h & d & c & -> & _). simpl.
      by rewrite addLog_short by (simpl; lia).
    - eapply logged_nonempty; [apply step_gameLog|done]. }
  destruct (gameLog s); [done|simpl; lia].
Qed.

Lemma gameLog_bounds_witness : 1 <= length (gameLog endgame) <= 50.
Proof. apply (gameLog_bounds endgame), reachable_passive, reach_deal. Defined.



(** X24. The human may always draw instead of playing: in a game, on the
    human's turn, a click on the deck draws the attack stack if there is
    one, else one card, as far as deck and discard pile can supply, and
    passes the turn to West, the top of the discard pile and the active suit
    staying as they are. *)
Theorem deck_click_draws rnd s :
  reachable s ->
  currentTurn s = south -> winner s = None -> isSuitSelectionOpen s = false ->
  step (DeckClick rnd) s
  = performDraw rnd south (if (0 <? attackStack s)%Z then attackStack s else 1%Z) s
  /\ length (h_south (hands (step (DeckClick rnd) s)))
     = length (h_south (hands s))
       + min (if (0 <? attackStack s)%Z then Z.to_nat (attackStack s) else 1) (drawable s)
  /\ currentTurn (step (DeckClick rnd) s) = west
  /\ attackStack (step (DeckClick rnd) s) = 0%Z
  /\ last (discardPile (step (DeckClick rnd) s)) = last (discardPile s)
  /\ activeSuit (step (DeckClick rnd) s) = activeSuit s.
Proof.
  intros HI%reachable_Inv Ht Hw Hs.
  assert (Hstep : step (DeckClick rnd) s = performDraw rnd south (drawCount s) s).
  { rewrite step_handle by done. simpl. unfold handleDeckClick, humanBlocked.
    by rewrite Ht, Hw, Hs. }
  rewrite Hstep. unfold drawCount.
  split; [done|]. split.
  { change (h_south (hands ?x)) with (hget (hands x) south).
    rewrite performDraw_hand_length. by destruct (0 <? attackStack s)%Z. }
  rewrite performDraw_top. rewrite performDraw_unfold. cbn -[Nat.min].
  repeat split; try done.
  destruct (0 <? attackStack s)%Z eqn:E; [done|].
  apply Z.ltb_ge in E. destruct (inv_attack s HI) as [k Hk]. lia.
Qed.

Lemma deck_click_draws_witness :
  step (DeckClick oracle0) game0
  = performDraw oracle0 south
      (if (0 <? attackStack game0)%Z then attackStack game0 else 1%Z) game0
  /\ length (h_south (hands (step (DeckClick oracle0) game0)))
     = length (h_south (hands game0))
       + min (if (0 <? attackStack game0)%Z then Z.to_nat (attackStack game0) else 1)
             (drawable game0)
  /\ currentTurn (step (DeckClick oracle0) game0) = west
  /\ attackStack (step (DeckClick oracle0) game0) = 0%Z
  /\ last (discardPile (step (DeckClick oracle0) game0)) = last (discardPile game0)
  /\ activeSuit (step (DeckClick oracle0) game0) = activeSuit game0.
Proof.
  apply (deck_click_draws oracle0 game0).
  - apply reach_deal.
  - vm_compute. reflexivity.
  - vm_compute. reflexivity.
  - vm_compute. reflexivity.
Defined.

(** ** One operation at a time *)

(** X25. No operation loses or copies a card: started in a state of a game
    and run to its end, a card click, a deck click, a suit choice or the turn
    of a non-human player leaves the deck, the four hands and the discard
    pile with the 52 cards of [createDeck], each once. *)
Theorem step_keeps_cards s op :
  reachable s ->
  allCards (step op s) ≡ₚ allCards s
  /\ allCards (step op s) ≡ₚ createDeck
  /\ length (deck (step op s))
     + (length (h_south (hands (step op s))) + length (h_west (hands (step op s)))
        + length (h_north (hands (step op s))) + length (h_east (hands (step op s))))
     + length (discardPile (step op s)) = 52
  /\ NoDup (card_id <$> allCards (step op s)).
Proof.
  intros HI%reachable_Inv.
  pose proof (step_Inv op s HI) as HI'.
  pose proof (inv_cards (step op s) HI') as Hp.
  split; [by rewrite Hp, (inv_cards s HI)|]. split; [done|].
  split; [|by apply Inv_NoDup].
  rewrite <- createDeck_length, <- Hp.
  unfold allCards, handCards. rewrite !length_app. lia.
Qed.

Lemma step_keeps_cards_witness :
  allCards (step (AITurn oracle0) westToMove) ≡ₚ allCards westToMove
  /\ allCards (step (AITurn oracle0) westToMove) ≡ₚ createDeck
  /\ length (deck (step (AITurn oracle0) westToMove))
     + (length (h_south (hands (step (AITurn oracle0) westToMove)))
        + length (h_west (hands (step (AITurn oracle0) westToMove)))
        + length (h_north (hands (step (AITurn oracle0) westToMove)))
        + length (h_east (hands (step (AITurn oracle0) westToMove))))
     + length (discardPile (step (AITurn oracle0) westToMove)) = 52
  /\ NoDup (card_id <$> allCards (step (AITurn oracle0) westToMove)).
Proof.
  apply (step_keeps_cards westToMove (AITurn oracle0)), reachable_passive, reach_deal.
Defined.

(** X26. An operation started after the win is refused: in a state of a
    game that has a winner, a card click, a deck click, a suit choice and the
    turn of a non-human player all leave the state as it is. *)
Theorem terminal_state_rejects s op :
  reachable s -> winner s ≠ None -> step op s = s.
Proof. intros HI%reachable_Inv Hw. by apply step_terminal. Qed.

Lemma terminal_state_rejects_witness : step (DeckClick oracle0) endgame = endgame.
Proof.
  apply (terminal_state_rejects endgame (DeckClick oracle0)).
  - apply reachable_passive, reach_deal.
  - vm_compute. discriminate.
Defined.
